(** * substituter: a shallow embedding of [substitute] and its properties

    The Python module [substituter.py] resolves [${name}] placeholders in the
    values of a dictionary.  The embedding follows the source function by
    function:

    - the dictionary [entries] is an insertion-ordered association list
      (iteration order is observable through the outer [for] loop);
    - the set [resolved] is a [gset string];
    - the list [seen] is a [list string], shared by reference along the
      recursion of one top-level call, hence a field of the threaded state;
    - exceptions are an explicit [Raise] outcome carrying the state at the
      point of the raise (the dictionary is mutated in place, so the caller
      can observe it afterwards);
    - the recursion of [resolve_substitution] is not structural, it is
      driven by a fuel argument that counts nesting levels.  Read as the
      number of levels the interpreter admits, it is the recursion limit of
      Python, and running out of it is the [RecursionError] that nothing in
      the module catches ([substitute_within]).  [substitute] is the
      interpreter that admits as many levels as the dictionary has entries,
      which is shown to be all that is ever needed. *)

From Stdlib Require Import Ascii.
From Stdlib Require String.
From stdpp Require Import base tactics option list strings gmap relations pretty.

(** ** Exceptions and outcomes *)

(** The two exception classes of the module, and Python's builtin [KeyError]
    which a subscript [entries[k]] raises on a missing key. *)
Inductive exn : Type :=
  | CyclicSubstitutionError (chain : list string)
  | UndefinedSubstitutionError (name : string)
  | KeyError (key : string).

(** ** The dictionary *)

Definition dict : Type := list (string * string).

(** [for entry in entries]: the keys in insertion order. *)
Definition dict_keys (d : dict) : list string := d.*1.

(** [entries[k]] as an r-value; [None] stands for [KeyError]. *)
Fixpoint dict_get (k : string) (d : dict) : option string :=
  match d with
  | [] => None
  | (k', v) :: d' => if decide (k' = k) then Some v else dict_get k d'
  end.

(** [k in entries]. *)
Definition dict_mem (k : string) (d : dict) : bool :=
  match dict_get k d with Some _ => true | None => false end.

(** [entries[k] = v]: an existing key keeps its position, a new key goes to
    the end. *)
Fixpoint dict_set (k v : string) (d : dict) : dict :=
  match d with
  | [] => [(k, v)]
  | (k', v') :: d' =>
      if decide (k' = k) then (k, v) :: d' else (k', v') :: dict_set k v d'
  end.

(** ** The regular expression [\$\{([a-zA-Z0-9_]+)\}] *)

(** The character class [[a-zA-Z0-9_]]. *)
Definition is_ident_char (c : ascii) : bool :=
  let n := nat_of_ascii c in
  (Nat.leb 97 n && Nat.leb n 122) || (Nat.leb 65 n && Nat.leb n 90)
  || (Nat.leb 48 n && Nat.leb n 57) || Nat.eqb n 95.

(** The greedy [[a-zA-Z0-9_]*]: the longest identifier prefix and the rest. *)
Fixpoint take_ident (s : string) : string * string :=
  match s with
  | EmptyString => (EmptyString, EmptyString)
  | String c s' =>
      if is_ident_char c
      then let '(i, r) := take_ident s' in (String c i, r)
      else (EmptyString, s)
  end.

(** A match anchored at the start of [s]: the captured group 1.  The class
    contains neither [}] nor [$], so the greedy run is the only candidate. *)
Definition match_placeholder (s : string) : option string :=
  match s with
  | String "$" (String "{" s') =>
      match take_ident s' with
      | (String c i, String "}" _) => Some (String c i)
      | _ => None
      end
  | _ => None
  end.

(** What [re.sub] sees in a subject string: literal characters and matches. *)
Inductive token : Type :=
  | Lit (c : ascii)
  | Ref (name : string).

(** Leftmost, non-overlapping matches, scanning left to right.  [skip] counts
    the characters of the current match that are still to be consumed. *)
Fixpoint scan_from (skip : nat) (s : string) : list token :=
  match s with
  | EmptyString => []
  | String c s' =>
      match skip with
      | S k => scan_from k s'
      | O =>
          match match_placeholder s with
          | Some name => Ref name :: scan_from (String.length name + 2) s'
          | None => Lit c :: scan_from 0 s'
          end
      end
  end.

Definition placeholder_scan (s : string) : list token := scan_from 0 s.

(** The text a token stands for in the subject string. *)
Definition token_text (t : token) : string :=
  match t with
  | Lit c => String c EmptyString
  | Ref name => "${" +:+ name +:+ "}"
  end.

Fixpoint tokens_text (ts : list token) : string :=
  match ts with
  | [] => EmptyString
  | t :: ts' => token_text t +:+ tokens_text ts'
  end.

Definition is_ref (t : token) : bool :=
  match t with Ref _ => true | Lit _ => false end.

(** ** The state threaded through [substitute] *)

(** [entries], [resolved] and [seen] are the three mutable objects of the
    source.  [seen_hist] is a history variable, absent from the source: it
    records every value the list [seen] takes, newest first, so that
    statements about "every point of the recursion" can be made. *)
Record state : Type := State {
  entries : dict;
  resolved : gset string;
  seen : list string;
  seen_hist : list (list string)
}.

Inductive outcome (A : Type) : Type :=
  | Return (a : A) (st : state)
  | Raise (e : exn) (st : state)
  | OutOfFuel.
Arguments Return {A} a st.
Arguments Raise {A} e st.
Arguments OutOfFuel {A}.

(** [seen.append(x)] *)
Definition seen_append (x : string) (st : state) : state :=
  {| entries := entries st; resolved := resolved st;
     seen := seen st ++ [x]; seen_hist := (seen st ++ [x]) :: seen_hist st |}.

(** [seen = list()] *)
Definition seen_fresh (st : state) : state :=
  {| entries := entries st; resolved := resolved st;
     seen := []; seen_hist := [] :: seen_hist st |}.

(** [entries[k] = v] *)
Definition set_entry (k v : string) (st : state) : state :=
  {| entries := dict_set k v (entries st); resolved := resolved st;
     seen := seen st; seen_hist := seen_hist st |}.

(** [resolved.add(k)] *)
Definition mark_resolved (k : string) (st : state) : state :=
  {| entries := entries st; resolved := {[k]} ∪ resolved st;
     seen := seen st; seen_hist := seen_hist st |}.

(** ** [re.sub] with a function as replacement *)

(** [re.sub(pattern, repl, subject)]: the result is built from the literal
    characters and from what [repl] returns for each match, in order; an
    exception in [repl] aborts the whole call. *)
Fixpoint re_sub (repl : string -> state -> outcome string)
    (ts : list token) (st : state) : outcome string :=
  match ts with
  | [] => Return EmptyString st
  | Lit c :: ts' =>
      match re_sub repl ts' st with
      | Return r st' => Return (String c r) st'
      | Raise e st' => Raise e st'
      | OutOfFuel => OutOfFuel
      end
  | Ref name :: ts' =>
      match repl name st with
      | Return v st1 =>
          match re_sub repl ts' st1 with
          | Return r st2 => Return (v +:+ r) st2
          | Raise e st2 => Raise e st2
          | OutOfFuel => OutOfFuel
          end
      | Raise e st1 => Raise e st1
      | OutOfFuel => OutOfFuel
      end
  end.

(** ** [capture_substituter] and [resolve_substitution] *)

(** The closure [capture_substituter]; [resolve] is the recursive call
    [resolve_substitution(capture, seen)]. *)
Definition capture_substituter (resolve : string -> state -> outcome string)
    (capture : string) (st : state) : outcome string :=
  if negb (dict_mem capture (entries st)) then
    Raise (UndefinedSubstitutionError capture) st
  else if decide (capture ∈ resolved st) then
    match dict_get capture (entries st) with
    | Some v => Return v st
    | None => Raise (KeyError capture) st
    end
  else if decide (capture ∈ seen st) then
    let st' := seen_append capture st in
    Raise (CyclicSubstitutionError (seen st')) st'
  else resolve capture st.

(** [resolve_substitution(entry, seen)] with [seen] already a list. *)
Fixpoint resolve_substitution (fuel : nat) (entry : string) (st : state)
    : outcome string :=
  match fuel with
  | O => OutOfFuel
  | S fuel' =>
      let st1 := seen_append entry st in
      match dict_get entry (entries st1) with
      | None => Raise (KeyError entry) st1
      | Some raw =>
          match re_sub (capture_substituter (resolve_substitution fuel'))
                       (placeholder_scan raw) st1 with
          | Return subst st2 =>
              let st3 :=
                if decide (entry = subst) then st2
                else set_entry entry subst st2 in
              Return subst (mark_resolved entry st3)
          | Raise e st2 => Raise e st2
          | OutOfFuel => OutOfFuel
          end
      end
  end.

(** [resolve_substitution(entry)]: [seen is None], a new list is made. *)
Definition resolve_toplevel (fuel : nat) (entry : string) (st : state)
    : outcome string :=
  resolve_substitution fuel entry (seen_fresh st).

(** ** [substitute] *)

(** The [for] loop over the keys. *)
Fixpoint substitute_loop (fuel : nat) (keys : list string) (st : state)
    : outcome unit :=
  match keys with
  | [] => Return tt st
  | entry :: keys' =>
      if decide (entry ∈ resolved st) then substitute_loop fuel keys' st
      else
        match resolve_toplevel fuel entry st with
        | Return _ st' => substitute_loop fuel keys' st'
        | Raise e st' => Raise e st'
        | OutOfFuel => OutOfFuel
        end
  end.

Definition initial_state (d : dict) : state :=
  {| entries := d; resolved := ∅; seen := []; seen_hist := [] |}.

Definition substitute_fuel (fuel : nat) (d : dict) : outcome unit :=
  substitute_loop fuel (dict_keys d) (initial_state d).

(** What a caller of [substitute] observes: the returned dictionary, or an
    exception together with the dictionary as the call left it. *)
Inductive result : Type :=
  | Returned (d : dict)
  | Raised (e : exn) (d : dict)
  | Diverged.

Definition observe (o : outcome unit) : result :=
  match o with
  | Return _ st => Returned (entries st)
  | Raise e st => Raised e (entries st)
  | OutOfFuel => Diverged
  end.

(** The recursion is never deeper than the number of keys
    (see [substitute_fuel_post] and [substitute_loop_mono]): this is
    [substitute] run by an interpreter whose recursion limit admits at least
    as many nesting levels as the dictionary has entries
    (see [substitute_within_enough]). *)
Definition substitute (d : dict) : result :=
  observe (substitute_fuel (length d) d).

(** ** The interpreter's recursion limit

    Each nesting level of the recursion stacks the frames of
    [resolve_substitution], [re.sub] and [capture_substituter]; Python
    raises [RecursionError] when the stack would grow beyond
    [sys.getrecursionlimit()], and the module catches nothing.  How many
    levels fit depends on the interpreter and on the depth of the caller, so
    it is a parameter: [limit] is the number of nested calls of
    [resolve_substitution] the interpreter admits (at most 333 under the
    default limit of 1000 frames).  The call one level deeper raises
    [RecursionError]: that is the outcome [OutOfFuel] of
    [resolve_substitution], which [re_sub], the enclosing calls and the loop
    pass on like any exception. *)
Inductive observed : Type :=
  | Returns (d : dict)
  | Raises (e : exn) (d : dict)
  | RaisesRecursionError.

Definition substitute_within (limit : nat) (d : dict) : observed :=
  match substitute_fuel limit d with
  | Return _ st => Returns (entries st)
  | Raise e st => Raises e (entries st)
  | OutOfFuel => RaisesRecursionError
  end.

Definition observed_of (r : result) : observed :=
  match r with
  | Returned d => Returns d
  | Raised e d => Raises e d
  | Diverged => RaisesRecursionError
  end.

(** ** Where a placeholder is encountered

    [captures limit entry st name st1]: in the course of the call
    [resolve_substitution(entry)] that starts in state [st] with [limit]
    levels left, [re.sub] reaches a match for [name] and calls
    [capture_substituter] for it in state [st1] - either while scanning the
    value of [entry] itself, all matches before it having been replaced, or
    inside the recursive call for an earlier match [inner]. *)
Inductive captures : nat -> string -> state -> string -> state -> Prop :=
  | captures_here limit entry st raw ts1 name ts2 r st1 :
      dict_get entry (entries st) = Some raw ->
      placeholder_scan raw = ts1 ++ Ref name :: ts2 ->
      re_sub (capture_substituter (resolve_substitution limit)) ts1
        (seen_append entry st) = Return r st1 ->
      captures (S limit) entry st name st1
  | captures_nested limit entry st raw ts1 inner ts2 r st1 name st2 :
      dict_get entry (entries st) = Some raw ->
      placeholder_scan raw = ts1 ++ Ref inner :: ts2 ->
      re_sub (capture_substituter (resolve_substitution limit)) ts1
        (seen_append entry st) = Return r st1 ->
      inner ∈ dict_keys (entries st1) -> inner ∉ resolved st1 ->
      inner ∉ seen st1 ->
      captures limit inner st1 name st2 ->
      captures (S limit) entry st name st2.

(** [top_level limit d top st]: the loop of [substitute] on [d] gets as far
    as [top] - the rounds for the keys before it have returned, leaving the
    state [st] - and [top] is not resolved yet, so that
    [resolve_substitution(top)] is called at top level. *)
Definition top_level (limit : nat) (d : dict) (top : string) (st : state)
    : Prop :=
  exists pre post,
    dict_keys d = pre ++ top :: post
    /\ substitute_loop limit pre (initial_state d) = Return tt st
    /\ top ∉ resolved st.

(** [encounters limit d name st1]: during the run of [substitute] on [d],
    [capture_substituter] is called for a placeholder [${name}] in state
    [st1]. *)
Definition encounters (limit : nat) (d : dict) (name : string) (st1 : state)
    : Prop :=
  exists top st,
    top_level limit d top st /\ captures limit top (seen_fresh st) name st1.

(** The two [raise] statements of [capture_substituter]: called for [name]
    in state [st1] it raises [e], leaving the state [st2]. *)
Definition raised_at (name : string) (st1 : state) (e : exn) (st2 : state)
    : Prop :=
  ((name ∉ dict_keys (entries st1))
   /\ e = UndefinedSubstitutionError name /\ st2 = st1)
  \/ (name ∈ dict_keys (entries st1) /\ (name ∉ resolved st1)
      /\ name ∈ seen st1
      /\ e = CyclicSubstitutionError (seen st1 ++ [name])
      /\ st2 = seen_append name st1).

(** [n] distinct identifiers: [k0], [k1], ... *)
Definition chain_keys (n : nat) : list string :=
  (fun i => "k" +:+ pretty i) <$> seq 0 n.

(** ** Notions of the specification *)

(** The fully substituted form of an entry, in the words of the
    specification (not a transcription of the source): the value of [k] in
    which every placeholder [${name}] has been replaced, recursively, by the
    fully substituted form of [name]. *)
Inductive fully_substituted (d : dict) : string -> string -> Prop :=
  | fully_substituted_entry k raw v :
      dict_get k d = Some raw ->
      substituted_text d (placeholder_scan raw) v ->
      fully_substituted d k v
with substituted_text (d : dict) : list token -> string -> Prop :=
  | substituted_nil : substituted_text d [] ""
  | substituted_lit c ts v :
      substituted_text d ts v ->
      substituted_text d (Lit c :: ts) (String c v)
  | substituted_ref name ts v1 v :
      fully_substituted d name v1 ->
      substituted_text d ts v ->
      substituted_text d (Ref name :: ts) (v1 +:+ v).

Scheme fully_substituted_mut := Minimality for fully_substituted Sort Prop
  with substituted_text_mut := Minimality for substituted_text Sort Prop.

(** The value of [k] contains the placeholder [${name}]. *)
Definition references (d : dict) (k name : string) : Prop :=
  exists raw, dict_get k d = Some raw /\ Ref name ∈ placeholder_scan raw.

(** Some entry of [d] has a placeholder [${name}] in its value. *)
Definition referenced (d : dict) (name : string) : Prop :=
  exists k, references d k name.

(** No entry's fully substituted form is the entry's own key. *)
Definition no_value_is_its_key (d : dict) : Prop :=
  forall k v, fully_substituted d k v -> v <> k.

(** The payload of the cyclic-reference error as the specification
    describes it: the chain starts at the name that is repeated at its
    end. *)
Definition starts_at_repetition (chain : list string) : Prop :=
  exists c mid, chain = c :: mid ++ [c].

(** No match of the placeholder pattern in a value, in a dictionary. *)
Definition value_placeholder_free (v : string) : bool :=
  forallb (fun t => negb (is_ref t)) (placeholder_scan v).

Definition placeholder_free (d : dict) : bool :=
  forallb (fun kv => value_placeholder_free kv.2) d.

(** ** What a call may change

    [ext_on P st st']: from [st] to [st'] the key list is the same, [seen] and
    the history only grew at their ends, [resolved] only grew, and the values
    of the keys in [P] are untouched. *)

Record ext_on (P : string -> Prop) (st st' : state) : Prop := Ext {
  ext_keys : dict_keys (entries st') = dict_keys (entries st);
  ext_seen : seen st `prefix_of` seen st';
  ext_resolved : resolved st ⊆ resolved st';
  ext_frame : forall k, P k -> dict_get k (entries st') = dict_get k (entries st);
  ext_hist : seen_hist st `suffix_of` seen_hist st'
}.

(** The keys already on the chain are not written. *)
Definition ext (st st' : state) : Prop := ext_on (fun k => k ∈ seen st) st st'.

Definition ext_out {A} (st : state) (o : outcome A) : Prop :=
  match o with
  | Return _ st' | Raise _ st' => ext st st'
  | OutOfFuel => True
  end.

(** A call of [resolve_substitution] for [entry] first appends [entry] and
    then writes no key of the chain but [entry]. *)
Definition ext_entry (entry : string) (st : state) (o : outcome string)
    : Prop :=
  match o with
  | Return _ st' | Raise _ st' =>
      ext_on (fun k => k ∈ seen st /\ k <> entry) (seen_append entry st) st'
  | OutOfFuel => True
  end.

(** ** The invariant of one run of [substitute]

    [d0] is the dictionary as the caller passed it. *)

Record inv (d0 : dict) (st : state) : Prop := Inv {
  inv_keys : dict_keys (entries st) = dict_keys d0;
  inv_seen_nodup : NoDup (seen st);
  inv_seen_keys : forall x, x ∈ seen st -> x ∈ dict_keys d0;
  inv_raw : forall k, k ∉ resolved st -> dict_get k (entries st) = dict_get k d0;
  inv_hist : Forall NoDup (seen_hist st);
  inv_hist_head : seen st = [] \/ head (seen_hist st) = Some (seen st);
  inv_wf : forall k, k ∈ resolved st -> exists v, fully_substituted d0 k v;
  inv_sem : no_value_is_its_key d0 -> forall k, k ∈ resolved st ->
    exists v, fully_substituted d0 k v /\ dict_get k (entries st) = Some v
}.

(** The unresolved names on the chain are the active call path: each of
    them leads, through placeholders, to the entry being scanned. *)
Definition path_inv (d0 : dict) (current : string) (st : state) : Prop :=
  forall x, x ∈ seen st -> x ∉ resolved st -> rtc (references d0) x current.

(** Whatever was appended to the chain since [st] is resolved in [st']. *)
Definition settled (st st' : state) : Prop :=
  forall x, x ∈ seen st' -> x ∉ resolved st' -> x ∈ seen st.

(** The state in which [CyclicSubstitutionError(seen)] is raised. *)
Record cyc_inv (d0 : dict) (chain : list string) (st : state) : Prop := CycInv {
  cyc_chain : chain = seen st;
  cyc_shape : exists s c,
    seen st = s ++ [c] /\ NoDup s /\ c ∈ s /\ (c ∉ resolved st)
    /\ tc (references d0) c c;
  cyc_seen_keys : forall x, x ∈ seen st -> x ∈ dict_keys d0;
  cyc_hist : exists h, seen_hist st = seen st :: h /\ Forall NoDup h
}.

Definition post_raise (d0 : dict) (e : exn) (st' : state) : Prop :=
  match e with
  | CyclicSubstitutionError chain => cyc_inv d0 chain st'
  | UndefinedSubstitutionError name =>
      inv d0 st' /\ (name ∉ dict_keys d0) /\ referenced d0 name
  | KeyError _ => False
  end.

(** The recursion can still go [n] levels down from [st]. *)
Definition fuel_ok (d0 : dict) (n : nat) (st : state) : Prop :=
  length (dict_keys d0) <= n + length (seen st).

Definition post {A} (d0 : dict) (n : nat) (Q : A -> state -> Prop)
    (st : state) (o : outcome A) : Prop :=
  match o with
  | Return a st' => inv d0 st' /\ Q a st'
  | Raise e st' => post_raise d0 e st'
  | OutOfFuel => ~ fuel_ok d0 n st
  end.

Definition post_loop (d0 : dict) (keys : list string) (st : state)
    (o : outcome unit) : Prop :=
  match o with
  | Return _ st' =>
      inv d0 st' /\ resolved st ⊆ resolved st'
      /\ forall k, k ∈ keys -> k ∈ resolved st'
  | Raise e st' =>
      post_raise d0 e st'
      /\ exists top, top ∈ keys /\ [top] `prefix_of` seen st'
  | OutOfFuel => False
  end.

(** ** Notions used by the further properties *)

(** A non-empty string over [[a-zA-Z0-9_]]: what group 1 of the pattern can
    capture. *)
Fixpoint all_ident (s : string) : bool :=
  match s with
  | EmptyString => true
  | String c s' => is_ident_char c && all_ident s'
  end.

Definition is_identifier (s : string) : bool :=
  match s with
  | EmptyString => false
  | String _ _ => all_ident s
  end.

(** The character [c] does not occur in [s]. *)
Fixpoint lacks (c : ascii) (s : string) : bool :=
  match s with
  | EmptyString => true
  | String c' s' => negb (Ascii.eqb c' c) && lacks c s'
  end.

(** [P] holds of the state in which a call returns or raises. *)
Definition after {A} (P : state -> Prop) (o : outcome A) : Prop :=
  match o with
  | Return _ st' | Raise _ st' => P st'
  | OutOfFuel => True
  end.

(** No entry references itself, directly or through other entries. *)
Definition acyclic (d : dict) : Prop :=
  forall k, ~ tc (references d) k k.

(** Every placeholder of every value names a key. *)
Definition fully_defined (d : dict) : Prop :=
  forall name, referenced d name -> name ∈ dict_keys d.

(** The dictionary of the long-chain test for any list of keys: each key
    refers to the next one, the last one holds [leaf]. *)
Fixpoint chain_dict (keys : list string) (leaf : string) : dict :=
  match keys with
  | [] => []
  | k :: keys' =>
      match keys' with
      | [] => [(k, leaf)]
      | k' :: _ => (k, token_text (Ref k')) :: chain_dict keys' leaf
      end
  end.

(** * Properties *)

Example test_trivial :
  substitute [("A", "${B}"); ("B", "x")] = Returned [("A", "x"); ("B", "x")].
Proof. by vm_compute. Qed.

Example test_normal_substitution :
  substitute [("A", "a"); ("B", "b"); ("C", "c");
              ("foo", "${A}${B}${C}"); ("bar", "${foo} ${foo}")]
  = Returned [("A", "a"); ("B", "b"); ("C", "c");
              ("foo", "abc"); ("bar", "abc abc")].
Proof. by vm_compute. Qed.

Example test_self_substitution :
  substitute [("A", "${A}")]
  = Raised (CyclicSubstitutionError ["A"; "A"]) [("A", "${A}")].
Proof. by vm_compute. Qed.

Example test_circular_substitution :
  substitute [("A", "${B}"); ("B", "${C}"); ("C", "${A}")]
  = Raised (CyclicSubstitutionError ["A"; "B"; "C"; "A"])
      [("A", "${B}"); ("B", "${C}"); ("C", "${A}")].
Proof. by vm_compute. Qed.

Example test_undef_substitution :
  substitute [("A", "${B}")]
  = Raised (UndefinedSubstitutionError "B") [("A", "${B}")].
Proof. by vm_compute. Qed.

Example placeholder_scan_example :
  placeholder_scan "a${b_1}${}${x${y}}$${z}"
  = [Lit "a"; Ref "b_1"; Lit "$"; Lit "{"; Lit "}"; Lit "$"; Lit "{";
     Lit "x"; Ref "y"; Lit "}"; Lit "$"; Ref "z"].
Proof. by vm_compute. Qed.

(** ** The dictionary operations *)

Section dict_facts.
Implicit Types (d : dict) (k v : string).

Lemma dict_get_keys k d : is_Some (dict_get k d) <-> k ∈ dict_keys d.
Proof.
  unfold dict_keys. induction d as [|[k' v'] d IH]; simpl.
  - split; [intros [? [=]] | inversion 1].
  - rewrite elem_of_cons. destruct (decide (k' = k)) as [->|Hne].
    + split; eauto.
    + rewrite IH. split; [auto | intros [?|?]; [congruence | done]].
Qed.

Lemma dict_get_None k d : dict_get k d = None <-> k ∉ dict_keys d.
Proof. rewrite <- dict_get_keys, eq_None_not_Some. done. Qed.

Lemma dict_mem_keys k d : dict_mem k d = true <-> k ∈ dict_keys d.
Proof.
  rewrite <- dict_get_keys. unfold dict_mem.
  destruct (dict_get k d); split; eauto; done.
Qed.

Lemma dict_get_elem k v d : dict_get k d = Some v -> (k, v) ∈ d.
Proof.
  induction d as [|[k' v'] d IH]; simpl; [done|].
  destruct (decide (k' = k)) as [->|Hne].
  - intros [= ->]. left.
  - intros H. right. auto.
Qed.

Lemma dict_get_set_eq k v d : dict_get k (dict_set k v d) = Some v.
Proof.
  induction d as [|[k' v'] d IH]; simpl.
  - by rewrite decide_True.
  - destruct (decide (k' = k)); simpl.
    + by rewrite decide_True.
    + by rewrite decide_False.
Qed.

Lemma dict_get_set_ne k k' v d :
  k <> k' -> dict_get k' (dict_set k v d) = dict_get k' d.
Proof.
  intros Hne. induction d as [|[k1 v1] d IH]; simpl.
  - by rewrite decide_False.
  - destruct (decide (k1 = k)) as [->|]; simpl.
    + by rewrite !decide_False.
    + by rewrite IH.
Qed.

Lemma dict_keys_set k v d :
  is_Some (dict_get k d) -> dict_keys (dict_set k v d) = dict_keys d.
Proof.
  unfold dict_keys. induction d as [|[k1 v1] d IH]; simpl.
  - intros [? [=]].
  - destruct (decide (k1 = k)) as [->|]; simpl; [done|].
    intros H. f_equal. by apply IH.
Qed.

Lemma dict_set_id k v d : dict_get k d = Some v -> dict_set k v d = d.
Proof.
  induction d as [|[k1 v1] d IH]; simpl; [done|].
  destruct (decide (k1 = k)) as [->|]; [by intros [= ->]|].
  intros H. by rewrite IH.
Qed.

Lemma dict_keys_length d : length (dict_keys d) = length d.
Proof. unfold dict_keys. by rewrite length_fmap. Qed.
End dict_facts.

(** ** The scanner *)

Lemma string_app_cons c (a b : string) : String c a +:+ b = String c (a +:+ b).
Proof. reflexivity. Qed.

Lemma string_app_nil (b : string) : "" +:+ b = b.
Proof. reflexivity. Qed.

Lemma string_app_assoc (a b c : string) : (a +:+ b) +:+ c = a +:+ (b +:+ c).
Proof.
  induction a as [|x a IH]; [done|].
  rewrite !string_app_cons. by f_equal.
Qed.

Lemma string_app_length (a b : string) :
  String.length (a +:+ b) = String.length a + String.length b.
Proof.
  induction a as [|x a IH]; [done|].
  rewrite string_app_cons. simpl. by f_equal.
Qed.

Lemma take_ident_app s i r : take_ident s = (i, r) -> s = i +:+ r.
Proof.
  revert i r. induction s as [|c s IH]; simpl; intros i r.
  - by intros [= <- <-].
  - destruct (is_ident_char c).
    + destruct (take_ident s) as [i' r'] eqn:E. intros [= <- <-].
      rewrite string_app_cons. f_equal. by apply IH.
    + by intros [= <- <-].
Qed.

Lemma match_placeholder_app s name :
  match_placeholder s = Some name ->
  exists rest, s = String "$" (String "{" (name +:+ String "}" rest)).
Proof.
  unfold match_placeholder.
  destruct s as [|a s]; [done|].
  destruct (decide (a = "$"%char)) as [->|Ha].
  2:{ destruct a as [[] [] [] [] [] [] [] []]; try done; by destruct s. }
  destruct s as [|b s]; [done|].
  destruct (decide (b = "{"%char)) as [->|Hb].
  2:{ destruct b as [[] [] [] [] [] [] [] []]; done. }
  destruct (take_ident s) as [i r] eqn:E.
  apply take_ident_app in E. subst s.
  destruct i as [|c i]; [done|].
  destruct r as [|e r]; [done|].
  destruct (decide (e = "}"%char)) as [->|He].
  2:{ destruct e as [[] [] [] [] [] [] [] []]; done. }
  intros [= <-]. by exists r.
Qed.

Lemma scan_from_skip p rest :
  scan_from (String.length p) (p +:+ rest) = scan_from 0 rest.
Proof.
  induction p as [|c p IH]; [by destruct rest|].
  rewrite string_app_cons. simpl. done.
Qed.

(** The scanner loses nothing: the tokens spell the subject string. *)
Lemma placeholder_scan_text s : tokens_text (placeholder_scan s) = s.
Proof.
  unfold placeholder_scan.
  assert (forall n s, String.length s < n -> tokens_text (scan_from 0 s) = s)
    as Hn; [|apply (Hn (S (String.length s))); lia].
  clear s. induction n as [|n IH]; intros s Hlen; [lia|].
  destruct s as [|c s]; [done|].
  cbn [scan_from].
  destruct (match_placeholder (String c s)) as [name|] eqn:E.
  - apply match_placeholder_app in E as [rest E].
    injection E as -> ->.
    replace (String "{" (name +:+ String "}" rest))
      with (String "{" (name +:+ "}") +:+ rest).
    2:{ rewrite string_app_cons, string_app_assoc. done. }
    replace (String.length name + 2) with
      (String.length (String "{" (name +:+ "}"))).
    2:{ simpl. rewrite string_app_length. simpl. lia. }
    rewrite scan_from_skip. cbn [tokens_text token_text].
    rewrite IH.
    + rewrite !string_app_cons, string_app_nil, !string_app_assoc. done.
    + simpl in Hlen. rewrite !string_app_length in Hlen. simpl in Hlen. lia.
  - cbn [tokens_text token_text]. rewrite IH; [done | simpl in Hlen; lia].
Qed.

(** A subject without any match is returned as it is. *)
Lemma re_sub_no_ref repl ts st :
  Forall (fun t => is_ref t = false) ts ->
  re_sub repl ts st = Return (tokens_text ts) st.
Proof.
  induction 1 as [|[c|name] ts Ht _ IH]; simpl; [done| |done].
  by rewrite IH.
Qed.

(** ** What a call changes *)

Lemma ext_on_refl P st : ext_on P st st.
Proof. by split. Qed.

Lemma ext_on_weaken (P Q : string -> Prop) st st' :
  (forall k, Q k -> P k) -> ext_on P st st' -> ext_on Q st st'.
Proof. intros HPQ []. split; auto. Qed.

Lemma ext_on_trans (P Q : string -> Prop) st1 st2 st3 :
  ext_on P st1 st2 -> ext_on Q st2 st3 -> (forall k, P k -> Q k) ->
  ext_on P st1 st3.
Proof.
  intros [K1 S1 R1 F1 H1] [K2 S2 R2 F2 H2] HPQ. split.
  - congruence.
  - by etrans.
  - set_solver.
  - intros k Hk. rewrite F2 by auto. auto.
  - by etrans.
Qed.

Lemma ext_trans st1 st2 st3 : ext st1 st2 -> ext st2 st3 -> ext st1 st3.
Proof.
  intros H12 H23. eapply ext_on_trans; [done..|].
  intros k Hk. destruct (ext_seen _ _ _ H12) as [l ->].
  apply elem_of_app. by left.
Qed.

Lemma ext_seen_append x st : ext st (seen_append x st).
Proof.
  split; simpl; try done.
  - by apply prefix_app_r.
  - by apply suffix_cons_r.
Qed.

Lemma ext_of_entry entry st st' :
  entry ∉ seen st ->
  ext_on (fun k => k ∈ seen st /\ k <> entry) (seen_append entry st) st' ->
  ext st st'.
Proof.
  intros Hnot H. eapply ext_on_trans; [apply ext_seen_append|..].
  - eapply ext_on_weaken; [|exact H]. simpl. intros k Hk. exact Hk.
  - simpl. intros k Hk. split; [done|]. intros ->. done.
Qed.

Section ext_lemmas.
Variable resolve : string -> state -> outcome string.
Hypothesis resolve_ext : forall entry st, ext_entry entry st (resolve entry st).

Lemma capture_substituter_ext capture st :
  ext_out st (capture_substituter resolve capture st).
Proof.
  unfold capture_substituter.
  destruct (negb (dict_mem capture (entries st))); [apply ext_on_refl|].
  destruct (decide (capture ∈ resolved st)).
  { destruct (dict_get capture (entries st)); apply ext_on_refl. }
  destruct (decide (capture ∈ seen st)) as [|Hnot].
  { apply ext_seen_append. }
  specialize (resolve_ext capture st).
  destruct (resolve capture st); simpl in *; try done;
    by apply (ext_of_entry capture).
Qed.

Lemma re_sub_ext ts st :
  ext_out st (re_sub (capture_substituter resolve) ts st).
Proof.
  revert st. induction ts as [|[c|name] ts IH]; intros st; simpl.
  - apply ext_on_refl.
  - specialize (IH st).
    by destruct (re_sub (capture_substituter resolve) ts st).
  - pose proof (capture_substituter_ext name st) as H1.
    destruct (capture_substituter resolve name st) as [v st1|e st1|];
      simpl in *; try done.
    specialize (IH st1).
    destruct (re_sub (capture_substituter resolve) ts st1);
      simpl in *; try done; exact (ext_trans _ _ _ H1 IH).
Qed.
End ext_lemmas.

Lemma resolve_substitution_ext fuel entry st :
  ext_entry entry st (resolve_substitution fuel entry st).
Proof.
  revert entry st. induction fuel as [|fuel IH]; intros entry st; [done|].
  cbn [resolve_substitution]. cbv zeta.
  set (st1 := seen_append entry st).
  destruct (dict_get entry (entries st1)) as [raw|] eqn:Hraw.
  2:{ apply ext_on_refl. }
  pose proof (re_sub_ext _ IH (placeholder_scan raw) st1) as H.
  destruct (re_sub _ _ st1) as [subst st2|e st2|]; simpl in *; try done.
  - destruct H as [K S R F Hh]. split; simpl.
    + destruct (decide (entry = subst)); simpl; [done|].
      rewrite dict_keys_set; [done|].
      apply dict_get_keys. rewrite K. apply dict_get_keys. eauto.
    + by destruct (decide (entry = subst)).
    + destruct (decide (entry = subst)); simpl; set_solver.
    + intros k [Hk Hne].
      destruct (decide (entry = subst)); simpl.
      * apply F. apply elem_of_app. by left.
      * rewrite dict_get_set_ne by done. apply F. apply elem_of_app. by left.
    + by destruct (decide (entry = subst)).
  - eapply ext_on_weaken; [|exact H]. simpl. intros k [Hk _].
    apply elem_of_app. by left.
Qed.

Lemma resolve_toplevel_ext fuel entry st :
  match resolve_toplevel fuel entry st with
  | Return _ st' | Raise _ st' =>
      dict_keys (entries st') = dict_keys (entries st)
      /\ resolved st ⊆ resolved st'
      /\ [entry] `prefix_of` seen st'
      /\ seen_hist st `suffix_of` seen_hist st'
  | OutOfFuel => True
  end.
Proof.
  unfold resolve_toplevel.
  pose proof (resolve_substitution_ext fuel entry (seen_fresh st)) as H.
  destruct (resolve_substitution fuel entry (seen_fresh st));
    simpl in *; try done; destruct H as [K S R F Hh]; simpl in *;
    (split_and!; [done..|]); (etrans; [|exact Hh]); by do 2 apply suffix_cons_r.
Qed.

(** ** Exceptions are not caught *)

(** An exception raised by the replacement function at some match aborts
    [re.sub] with that exception, in the state of the raise. *)
Lemma re_sub_raise repl ts1 name ts2 st r st1 e st2 :
  re_sub repl ts1 st = Return r st1 ->
  repl name st1 = Raise e st2 ->
  re_sub repl (ts1 ++ Ref name :: ts2) st = Raise e st2.
Proof.
  revert st r. induction ts1 as [|[c|name'] ts1 IH]; intros st r; simpl.
  - intros [= _ ->] ->. done.
  - destruct (re_sub repl ts1 st) as [r' st'| |] eqn:E; [|done..].
    intros [= _ ->] Hraise. by rewrite (IH st r' E Hraise).
  - destruct (repl name' st) as [v st'| |]; [|done..].
    destruct (re_sub repl ts1 st') as [r' st''| |] eqn:E; [|done..].
    intros [= _ ->] Hraise. by rewrite (IH st' r' E Hraise).
Qed.

(** ... and so does the call of [resolve_substitution] that runs it. *)
Lemma resolve_substitution_raise fuel entry st raw ts1 name ts2 r st1 e st2 :
  dict_get entry (entries st) = Some raw ->
  placeholder_scan raw = ts1 ++ Ref name :: ts2 ->
  re_sub (capture_substituter (resolve_substitution fuel)) ts1
    (seen_append entry st) = Return r st1 ->
  capture_substituter (resolve_substitution fuel) name st1 = Raise e st2 ->
  resolve_substitution (S fuel) entry st = Raise e st2.
Proof.
  intros Hraw Hscan Hpre Hraise.
  cbn [resolve_substitution]. cbv zeta. simpl entries at 1.
  rewrite Hraw, Hscan. by rewrite (re_sub_raise _ _ _ _ _ _ _ _ _ Hpre Hraise).
Qed.

(** ** The fully substituted form *)

Lemma substituted_text_refs d ts v name :
  substituted_text d ts v -> Ref name ∈ ts ->
  exists v1, fully_substituted d name v1.
Proof.
  induction 1 as [|c ts v _ IH|name' ts v1 v H1 _ IH].
  - intros Hn. by apply elem_of_nil in Hn.
  - intros [[=]|Hn]%elem_of_cons. by apply IH.
  - intros [[= ->]|Hn]%elem_of_cons; [by exists v1 | by apply IH].
Qed.

Lemma substituted_text_exists d ts :
  (forall name, Ref name ∈ ts -> exists v1, fully_substituted d name v1) ->
  exists v, substituted_text d ts v.
Proof.
  induction ts as [|[c|name] ts IH]; intros H.
  - eexists. constructor.
  - destruct IH as [v Hv]; [intros; apply H; by right|].
    eexists. by constructor.
  - destruct IH as [v Hv]; [intros; apply H; by right|].
    destruct (H name) as [v1 Hv1]; [by left|].
    eexists. by constructor.
Qed.

Lemma fully_substituted_key d k v : fully_substituted d k v -> k ∈ dict_keys d.
Proof. intros [k' raw v' Hraw _]. apply dict_get_keys. by rewrite Hraw. Qed.

(** An entry with a fully substituted form references only such entries. *)
Lemma fully_substituted_references d k v name :
  fully_substituted d k v -> references d k name ->
  exists v1, fully_substituted d name v1.
Proof.
  intros [k' raw v' Hraw Htext] (raw' & Hraw' & Hname).
  rewrite Hraw in Hraw'. injection Hraw' as <-.
  by eapply substituted_text_refs.
Qed.

(** The fully substituted form is unique. *)
Lemma fully_substituted_det d k v :
  fully_substituted d k v -> forall v', fully_substituted d k v' -> v = v'.
Proof.
  revert k v.
  apply (fully_substituted_mut d
    (fun k v => forall v', fully_substituted d k v' -> v = v')
    (fun ts v => forall v', substituted_text d ts v' -> v = v')).
  - intros k raw v Hraw _ IH v' H'. inversion H' as [k' raw' v'' Hraw' Ht'].
    subst. rewrite Hraw in Hraw'. injection Hraw' as <-. by apply IH.
  - intros v' H'. by inversion H'.
  - intros c ts v _ IH v' H'. inversion H' as [|c' ts' v'' Ht'|]; subst.
    f_equal. by apply IH.
  - intros name ts v1 v _ IH1 _ IH v' H'.
    inversion H' as [| |name' ts' v1' v'' H1' Ht']; subst.
    f_equal; [by apply IH1 | by apply IH].
Qed.

(** Entries with a fully substituted form lie on no reference cycle. *)
Lemma fully_substituted_acc d k v :
  fully_substituted d k v -> Acc (flip (references d)) k.
Proof.
  revert k v.
  apply (fully_substituted_mut d
    (fun k v => Acc (flip (references d)) k)
    (fun ts v => forall name, Ref name ∈ ts -> Acc (flip (references d)) name)).
  - intros k raw v Hraw _ IH. constructor.
    intros name (raw' & Hraw' & Hname).
    rewrite Hraw in Hraw'. injection Hraw' as <-. by apply IH.
  - intros name Hn. by apply elem_of_nil in Hn.
  - intros c ts v _ IH name [[=]|Hn]%elem_of_cons. by apply IH.
  - intros name ts v1 v _ IH1 _ IH name' [[= ->]|Hn]%elem_of_cons;
      [done | by apply IH].
Qed.

Lemma acc_no_cycle {A} (R : relation A) x : Acc (flip R) x -> ~ tc R x x.
Proof.
  induction 1 as [x _ IH]. intros Hc.
  inversion Hc as [x' y' Hxx|x' y z Hxy Hyx]; subst.
  - by apply (IH x Hxx).
  - apply (IH y Hxy). by eapply tc_r.
Qed.

Lemma fully_substituted_no_cycle d k v :
  fully_substituted d k v -> ~ tc (references d) k k.
Proof. intros H. by eapply acc_no_cycle, fully_substituted_acc. Qed.

(** ** The invariant is kept *)

Lemma post_weaken {A} d0 n (Q Q' : A -> state -> Prop) st (o : outcome A) :
  (forall a st', Q a st' -> Q' a st') -> post d0 n Q st o -> post d0 n Q' st o.
Proof. intros HQ. destruct o; simpl; [intros []; auto | done..]. Qed.

Lemma fuel_ok_ext d0 n st st' :
  ext st st' -> fuel_ok d0 n st -> fuel_ok d0 n st'.
Proof.
  intros H. unfold fuel_ok. pose proof (prefix_length _ _ (ext_seen _ _ _ H)).
  lia.
Qed.

Lemma inv_initial d0 : inv d0 (initial_state d0).
Proof.
  split; simpl.
  - done.
  - apply NoDup_nil_2.
  - intros x Hx. by apply elem_of_nil in Hx.
  - done.
  - done.
  - by left.
  - intros k Hk. by apply not_elem_of_empty in Hk.
  - intros _ k Hk. by apply not_elem_of_empty in Hk.
Qed.

Lemma inv_seen_fresh d0 st : inv d0 st -> inv d0 (seen_fresh st).
Proof.
  intros []. split; simpl.
  - done.
  - apply NoDup_nil_2.
  - intros x Hx. by apply elem_of_nil in Hx.
  - done.
  - apply Forall_cons. split; [apply NoDup_nil_2 | done].
  - by left.
  - done.
  - done.
Qed.

Lemma inv_seen_append d0 x st :
  inv d0 st -> x ∈ dict_keys d0 -> x ∉ seen st -> inv d0 (seen_append x st).
Proof.
  intros [K N S R H HH W F] Hx Hnot.
  assert (NoDup (seen st ++ [x])) as HN.
  { apply NoDup_app. split_and!; [done| |apply NoDup_singleton].
    intros y Hy ->%list_elem_of_singleton. done. }
  split; simpl.
  - done.
  - done.
  - intros y [Hy| ->%list_elem_of_singleton]%elem_of_app; auto.
  - done.
  - by apply Forall_cons.
  - by right.
  - done.
  - done.
Qed.

Lemma seen_length_lt d0 entry st :
  inv d0 st -> entry ∈ dict_keys d0 -> entry ∉ seen st ->
  length (seen st) < length (dict_keys d0).
Proof.
  intros Hinv Hk Hnot.
  destruct (inv_seen_append d0 entry st Hinv Hk Hnot) as [_ N S _ _ _ _ _].
  simpl in *. apply NoDup_submseteq in S; [|done].
  apply submseteq_length in S. rewrite length_app in S. simpl in S. lia.
Qed.

(** The state after [if entry != subst: entries[entry] = subst] and
    [resolved.add(entry)]. *)
Lemma inv_store d0 entry raw subst st :
  inv d0 st -> dict_get entry d0 = Some raw ->
  (forall name, Ref name ∈ placeholder_scan raw -> name ∈ resolved st) ->
  (no_value_is_its_key d0 -> substituted_text d0 (placeholder_scan raw) subst) ->
  inv d0 (mark_resolved entry
            (if decide (entry = subst) then st else set_entry entry subst st)).
Proof.
  intros [K N S R H HH W F] Hraw Hrefs Htext.
  assert (forall k,
    k ∈ resolved (mark_resolved entry
      (if decide (entry = subst) then st else set_entry entry subst st))
    <-> k = entry \/ k ∈ resolved st) as Hres.
  { intros k. destruct (decide (entry = subst)); simpl;
      by rewrite elem_of_union, elem_of_singleton. }
  assert (exists v, fully_substituted d0 entry v) as Hentry.
  { destruct (substituted_text_exists d0 (placeholder_scan raw)) as [v Hv].
    - intros name Hn. by apply W, Hrefs.
    - exists v. by econstructor. }
  split.
  - destruct (decide (entry = subst)); simpl; [done|].
    rewrite dict_keys_set; [done|]. apply dict_get_keys. rewrite K.
    apply dict_get_keys. by rewrite Hraw.
  - by destruct (decide (entry = subst)).
  - by destruct (decide (entry = subst)).
  - intros k Hk. rewrite Hres in Hk.
    destruct (decide (entry = subst)); simpl.
    + apply R. tauto.
    + rewrite dict_get_set_ne by (intros ->; tauto). apply R. tauto.
  - by destruct (decide (entry = subst)).
  - by destruct (decide (entry = subst)).
  - intros k [->|Hk]%Hres; [done | by apply W].
  - intros Hclean k Hk%Hres.
    destruct (decide (k = entry)) as [->|Hne].
    + exists subst.
      assert (fully_substituted d0 entry subst) as Hfs.
      { econstructor; [done | by apply Htext]. }
      split; [done|]. rewrite decide_False.
      * simpl. apply dict_get_set_eq.
      * intros Heq. by apply (Hclean entry subst).
    + destruct Hk as [?|Hk]; [done|].
      destruct (F Hclean k Hk) as (v & Hv & Hget). exists v. split; [done|].
      destruct (decide (entry = subst)); simpl; [done|].
      by rewrite dict_get_set_ne.
Qed.

Lemma settled_refl st : settled st st.
Proof. by intros x. Qed.

Lemma settled_trans st1 st2 st3 :
  ext st2 st3 -> settled st1 st2 -> settled st2 st3 -> settled st1 st3.
Proof.
  intros E H12 H23 x Hx Hr. apply H12; [by apply H23|].
  intros Hr2. by apply Hr, (ext_resolved _ _ _ E).
Qed.

Lemma path_inv_settled d0 current st st' :
  ext st st' -> settled st st' -> path_inv d0 current st ->
  path_inv d0 current st'.
Proof.
  intros E Hs Hp x Hx Hr. apply Hp; [by apply Hs|].
  intros Hr0. by apply Hr, (ext_resolved _ _ _ E).
Qed.

Section callbacks.
Variable d0 : dict.
Variable n : nat.
Variable resolve : string -> state -> outcome string.
Hypothesis resolve_ext : forall entry st, ext_entry entry st (resolve entry st).
Hypothesis resolve_post : forall entry st,
  inv d0 st -> entry ∈ dict_keys d0 -> entry ∉ resolved st ->
  entry ∉ seen st -> path_inv d0 entry st ->
  post d0 n (fun a st' =>
      entry ∈ resolved st' /\ settled st st'
      /\ (no_value_is_its_key d0 -> fully_substituted d0 entry a))
    st (resolve entry st).

Lemma capture_substituter_post current capture st :
  inv d0 st -> references d0 current capture -> path_inv d0 current st ->
  post d0 n (fun a st' =>
      capture ∈ resolved st' /\ settled st st'
      /\ (no_value_is_its_key d0 -> fully_substituted d0 capture a))
    st (capture_substituter resolve capture st).
Proof.
  intros Hinv Href Hpath. unfold capture_substituter.
  destruct (dict_mem capture (entries st)) eqn:Hmem; simpl.
  2:{ split_and!; [done| |by exists current].
      rewrite <- (inv_keys _ _ Hinv), <- dict_mem_keys. by rewrite Hmem. }
  apply dict_mem_keys in Hmem.
  assert (capture ∈ dict_keys d0) as Hk by by rewrite <- (inv_keys _ _ Hinv).
  destruct (decide (capture ∈ resolved st)) as [Hres|Hres].
  { apply dict_get_keys in Hmem as [v Hv]. rewrite Hv. simpl.
    split_and!; [done..|apply settled_refl|]. intros Hclean.
    destruct (inv_sem _ _ Hinv Hclean capture Hres) as (v' & Hv' & Hget).
    congruence. }
  destruct (decide (capture ∈ seen st)) as [Hseen|Hseen].
  2:{ apply resolve_post; try done.
      intros x Hx Hr. eapply rtc_r; [by apply Hpath | done]. }
  simpl. destruct Hinv. split; simpl.
  - done.
  - exists (seen st), capture. split_and!; [done..|].
    eapply tc_rtc_l; [by apply Hpath | by apply tc_once].
  - intros y [Hy| ->%list_elem_of_singleton]%elem_of_app; auto.
  - by exists (seen_hist st).
Qed.

Lemma re_sub_post current ts st :
  inv d0 st -> (forall name, Ref name ∈ ts -> references d0 current name) ->
  path_inv d0 current st ->
  post d0 n (fun a st' =>
      (forall name, Ref name ∈ ts -> name ∈ resolved st') /\ settled st st'
      /\ (no_value_is_its_key d0 -> substituted_text d0 ts a))
    st (re_sub (capture_substituter resolve) ts st).
Proof.
  revert st. induction ts as [|[c|name] ts IH]; intros st Hinv Href Hpath; simpl.
  - split_and!; [done| |apply settled_refl|constructor].
    intros name Hn. by apply elem_of_nil in Hn.
  - assert (forall name, Ref name ∈ ts -> references d0 current name) as Href'.
    { intros name Hn. apply Href. by right. }
    specialize (IH st Hinv Href' Hpath).
    destruct (re_sub (capture_substituter resolve) ts st); simpl in *;
      [|done..].
    destruct IH as (? & IH & Hs & Ht). split_and!; [done| |done|].
    + intros name [[=]|?]%elem_of_cons. auto.
    + intros Hclean. constructor. auto.
  - assert (forall name, Ref name ∈ ts -> references d0 current name) as Href'.
    { intros name' Hn. apply Href. by right. }
    pose proof (capture_substituter_post current name st Hinv
                  (Href _ (list_elem_of_here _ _)) Hpath) as H1.
    pose proof (capture_substituter_ext _ resolve_ext name st) as E1.
    destruct (capture_substituter resolve name st) as [v st1|e st1|];
      simpl in *; [|done..].
    destruct H1 as (Hinv1 & Hr1 & Hs1 & Hv1).
    specialize (IH st1 Hinv1 Href' (path_inv_settled _ _ _ _ E1 Hs1 Hpath)).
    pose proof (re_sub_ext _ resolve_ext ts st1) as E2.
    destruct (re_sub (capture_substituter resolve) ts st1) as [r st2|e st2|];
      simpl in *; [|done|].
    + destruct IH as (? & IH & Hs2 & Ht). split_and!; [done| | |].
      * intros name' [[= ->]|?]%elem_of_cons; [|by auto].
        by apply (ext_resolved _ _ _ E2).
      * by eapply settled_trans.
      * intros Hclean. constructor; auto.
    + intros Hf. apply IH. by eapply fuel_ok_ext.
Qed.
End callbacks.

Lemma resolve_substitution_post d0 fuel entry st :
  inv d0 st -> entry ∈ dict_keys d0 -> entry ∉ resolved st ->
  entry ∉ seen st -> path_inv d0 entry st ->
  post d0 fuel (fun a st' =>
      entry ∈ resolved st' /\ settled st st'
      /\ (no_value_is_its_key d0 -> fully_substituted d0 entry a))
    st (resolve_substitution fuel entry st).
Proof.
  revert entry st.
  induction fuel as [|fuel IH]; intros entry st Hinv Hk Hres Hseen Hpath.
  { simpl. unfold fuel_ok.
    pose proof (seen_length_lt d0 entry st Hinv Hk Hseen). lia. }
  cbn [resolve_substitution]. cbv zeta.
  pose proof (inv_seen_append d0 entry st Hinv Hk Hseen) as Hinv1.
  set (st1 := seen_append entry st) in *.
  assert (dict_get entry (entries st1) = dict_get entry d0) as Hraw.
  { by apply (inv_raw _ _ Hinv1). }
  destruct (dict_get entry d0) as [raw|] eqn:Hd0.
  2:{ apply dict_get_None in Hd0. done. }
  rewrite Hraw.
  assert (path_inv d0 entry st1) as Hpath1.
  { intros x [Hx| ->%list_elem_of_singleton]%elem_of_app Hr; [by apply Hpath|].
    done. }
  assert (forall name, Ref name ∈ placeholder_scan raw ->
                       references d0 entry name) as Href.
  { intros name Hn. by exists raw. }
  pose proof (re_sub_post d0 fuel _ (resolve_substitution_ext fuel) IH
                entry (placeholder_scan raw) st1 Hinv1 Href Hpath1) as H.
  destruct (re_sub _ _ st1) as [subst st2|e st2|]; simpl in *.
  - destruct H as (Hinv2 & Hrefs & Hs & Htext).
    split_and!.
    + by eapply inv_store.
    + apply elem_of_union. left. by apply elem_of_singleton.
    + intros x Hx Hr.
      assert (x <> entry /\ x ∉ resolved st2) as [Hne Hr2].
      { destruct (decide (entry = subst)); simpl in *;
          rewrite elem_of_union, elem_of_singleton in Hr; tauto. }
      assert (x ∈ seen st1) as [?| ->%list_elem_of_singleton]%elem_of_app;
        [|done..].
      apply Hs; [|done]. by destruct (decide (entry = subst)).
    + intros Hclean. econstructor; [done | by apply Htext].
  - done.
  - intros Hf. apply H.
    unfold fuel_ok in *. simpl. rewrite length_app. simpl. lia.
Qed.

(** The loop over the keys. *)
Lemma substitute_loop_post d0 fuel keys st :
  length (dict_keys d0) <= fuel ->
  inv d0 st -> (forall k, k ∈ keys -> k ∈ dict_keys d0) ->
  post_loop d0 keys st (substitute_loop fuel keys st).
Proof.
  intros Hfuel. revert st.
  induction keys as [|entry keys IH]; intros st Hinv Hkeys; simpl.
  { split_and!; [done..|]. intros k Hk. by apply elem_of_nil in Hk. }
  assert (forall k, k ∈ keys -> k ∈ dict_keys d0) as Hkeys'.
  { intros k Hk. apply Hkeys. by right. }
  destruct (decide (entry ∈ resolved st)) as [Hres|Hres].
  { specialize (IH st Hinv Hkeys').
    destruct (substitute_loop fuel keys st); simpl in *; [| |done].
    - destruct IH as (? & Hsub & IH). split_and!; [done..|].
      intros k [->|?]%elem_of_cons; [by apply Hsub | auto].
    - destruct IH as [? (top & ? & ?)]. split; [done|].
      exists top. split; [by right | done]. }
  unfold resolve_toplevel.
  pose proof (resolve_substitution_post d0 fuel entry (seen_fresh st)
                (inv_seen_fresh _ _ Hinv)) as H.
  pose proof (resolve_toplevel_ext fuel entry st) as E.
  unfold resolve_toplevel in E.
  destruct (resolve_substitution fuel entry (seen_fresh st))
    as [v st1|e st1|]; simpl in *.
  - destruct H as (Hinv1 & Hr1 & _);
      [apply Hkeys; by left | done | apply not_elem_of_nil
      | by intros x Hx%elem_of_nil |].
    destruct E as (_ & Hsub & _).
    specialize (IH st1 Hinv1 Hkeys').
    destruct (substitute_loop fuel keys st1); simpl in *; [| |done].
    + destruct IH as (? & Hsub' & IH). split_and!; [done|by etrans|].
      intros k [->|?]%elem_of_cons; [by apply Hsub' | auto].
    + destruct IH as [? (top & ? & ?)]. split; [done|].
      exists top. split; [by right | done].
  - split.
    + apply H; [apply Hkeys; by left | done | apply not_elem_of_nil|].
      by intros x Hx%elem_of_nil.
    + exists entry. split; [by left | by destruct E as (_ & _ & ? & _)].
  - apply H; [apply Hkeys; by left | done | apply not_elem_of_nil | |].
    + by intros x Hx%elem_of_nil.
    + unfold fuel_ok. simpl. lia.
Qed.

Lemma substitute_fuel_post fuel d :
  length d <= fuel ->
  post_loop d (dict_keys d) (initial_state d) (substitute_fuel fuel d).
Proof.
  intros Hfuel. apply substitute_loop_post.
  - by rewrite dict_keys_length.
  - apply inv_initial.
  - done.
Qed.

(** ** More fuel changes nothing *)

Lemma capture_substituter_mono (r r' : string -> state -> outcome string) :
  (forall c st, r c st <> OutOfFuel -> r' c st = r c st) ->
  forall c st, capture_substituter r c st <> OutOfFuel ->
    capture_substituter r' c st = capture_substituter r c st.
Proof.
  intros Hr c st. unfold capture_substituter.
  destruct (negb (dict_mem c (entries st))); [done|].
  destruct (decide (c ∈ resolved st)); [done|].
  destruct (decide (c ∈ seen st)); [done|]. apply Hr.
Qed.

Lemma re_sub_mono (r r' : string -> state -> outcome string) :
  (forall c st, r c st <> OutOfFuel -> r' c st = r c st) ->
  forall ts st, re_sub r ts st <> OutOfFuel -> re_sub r' ts st = re_sub r ts st.
Proof.
  intros Hr ts. induction ts as [|[c|name] ts IH]; intros st; simpl; [done|..].
  - intros H. rewrite IH; [done|]. by destruct (re_sub r ts st).
  - intros H. rewrite Hr; [|by destruct (r name st)].
    destruct (r name st) as [v st1| |]; [|done..].
    rewrite IH; [done|]. by destruct (re_sub r ts st1).
Qed.

Lemma resolve_substitution_mono fuel extra entry st :
  resolve_substitution fuel entry st <> OutOfFuel ->
  resolve_substitution (fuel + extra) entry st
  = resolve_substitution fuel entry st.
Proof.
  revert entry st. induction fuel as [|fuel IH]; intros entry st; [done|].
  cbn [Nat.add resolve_substitution]. cbv zeta.
  destruct (dict_get entry (entries (seen_append entry st))); [|done].
  intros H.
  rewrite (re_sub_mono (capture_substituter (resolve_substitution fuel))).
  - done.
  - apply capture_substituter_mono, IH.
  - by destruct (re_sub _ _ (seen_append entry st)).
Qed.

Lemma substitute_loop_mono fuel extra keys st :
  substitute_loop fuel keys st <> OutOfFuel ->
  substitute_loop (fuel + extra) keys st = substitute_loop fuel keys st.
Proof.
  revert st. induction keys as [|entry keys IH]; intros st; simpl; [done|].
  destruct (decide (entry ∈ resolved st)); [apply IH|].
  unfold resolve_toplevel. intros H.
  rewrite resolve_substitution_mono;
    [|by destruct (resolve_substitution fuel entry (seen_fresh st))].
  destruct (resolve_substitution fuel entry (seen_fresh st)); [|done..].
  by apply IH.
Qed.

(** ** Key set *)

Lemma substitute_loop_keys fuel keys st :
  match substitute_loop fuel keys st with
  | Return _ st' | Raise _ st' =>
      dict_keys (entries st') = dict_keys (entries st)
  | OutOfFuel => True
  end.
Proof.
  revert st. induction keys as [|entry keys IH]; intros st; simpl; [done|].
  destruct (decide (entry ∈ resolved st)); [apply IH|].
  pose proof (resolve_toplevel_ext fuel entry st) as E.
  destruct (resolve_toplevel fuel entry st) as [v st1|e st1|]; [|tauto|done].
  destruct E as [E _]. specialize (IH st1). rewrite <- E.
  by destruct (substitute_loop fuel keys st1).
Qed.

Lemma inv_seen_length d st : inv d st -> length (seen st) <= length d.
Proof.
  intros [_ N S _ _ _ _ _]. rewrite <- (dict_keys_length d).
  apply submseteq_length, NoDup_submseteq; done.
Qed.

Lemma cyc_inv_length d chain st : cyc_inv d chain st -> length chain <= S (length d).
Proof.
  intros [-> (s & c & -> & N & _) S _]. rewrite length_app. simpl.
  rewrite <- (dict_keys_length d).
  assert (length s <= length (dict_keys d)); [|lia].
  apply submseteq_length, NoDup_submseteq; [done|].
  intros x Hx. apply S, elem_of_app. by left.
Qed.

(** ** Key set and size *)

(** C8. [substitute] never adds or removes a key: whether it returns or
    raises, the dictionary it leaves behind has the key list (hence the key
    set and the size) of the dictionary it was given. *)
Theorem substitute_keys_unchanged (d : dict) :
  match substitute d with
  | Returned d' | Raised _ d' =>
      dict_keys d' = dict_keys d /\ length d' = length d
  | Diverged => False
  end.
Proof.
  unfold substitute.
  pose proof (substitute_fuel_post (length d) d (Nat.le_refl _)) as H.
  pose proof (substitute_loop_keys (length d) (dict_keys d) (initial_state d))
    as K.
  fold (substitute_fuel (length d) d) in K.
  destruct (substitute_fuel (length d) d) as [[] st|e st|]; simpl in *.
  - split; [done|]. by rewrite <- !dict_keys_length, K.
  - split; [done|]. by rewrite <- !dict_keys_length, K.
  - done.
Qed.

(** ** The seen chain *)

(** C9. [seen_hist] records every value the list [seen] takes during a run
    of [substitute], the current one first.  Every recorded value is
    duplicate-free, with one exception: the value carried by a
    [CyclicSubstitutionError], which is a duplicate-free chain followed by a
    name that already occurs in it.  That value is the last one the list
    takes. *)
Theorem seen_chain_no_duplicates (d : dict) :
  match substitute_fuel (length d) d with
  | Return _ st | Raise (UndefinedSubstitutionError _) st =>
      Forall NoDup (seen_hist st)
      /\ (seen st = [] \/ head (seen_hist st) = Some (seen st))
  | Raise (CyclicSubstitutionError chain) st =>
      exists s c h,
        seen st = chain /\ seen_hist st = chain :: h /\ chain = s ++ [c]
        /\ NoDup s /\ c ∈ s /\ Forall NoDup h
  | Raise (KeyError _) _ => False
  | OutOfFuel => False
  end.
Proof.
  pose proof (substitute_fuel_post (length d) d (Nat.le_refl _)) as H.
  destruct (substitute_fuel (length d) d) as [[] st|[chain|name|key] st|];
    simpl in H.
  - destruct H as [H _]. split; [apply (inv_hist _ _ H) | apply (inv_hist_head _ _ H)].
  - destruct H as [[-> (s & c & Hs & N & Hc & _) _ (h & Hh & Fh)] _].
    exists s, c, h. by rewrite Hh, Hs.
  - destruct H as [[H _] _].
    split; [apply (inv_hist _ _ H) | apply (inv_hist_head _ _ H)].
  - by destruct H.
  - done.
Qed.

Example seen_chain_history :
  match substitute_fuel 3 [("A", "${B}${C}"); ("B", "${C}"); ("C", "${A}")] with
  | Raise e st =>
      e = CyclicSubstitutionError ["A"; "B"; "C"; "A"]
      /\ seen_hist st
         = [["A"; "B"; "C"; "A"]; ["A"; "B"; "C"]; ["A"; "B"]; ["A"]; []]
  | _ => False
  end.
Proof. vm_compute. done. Qed.

Lemma substitute_Raised d e d' :
  substitute d = Raised e d' ->
  exists st, substitute_fuel (length d) d = Raise e st /\ entries st = d'.
Proof.
  unfold substitute.
  destruct (substitute_fuel (length d) d) as [[] st|e0 st|]; simpl; try done.
  intros [= -> <-]. by exists st.
Qed.

Lemma substitute_Returned d d' :
  substitute d = Returned d' ->
  exists st, substitute_fuel (length d) d = Return tt st /\ entries st = d'.
Proof.
  unfold substitute.
  destruct (substitute_fuel (length d) d) as [[] st|e0 st|]; simpl; try done.
  intros [= <-]. by exists st.
Qed.

Lemma substitute_keys_or_diverged d : substitute d <> Diverged.
Proof.
  unfold substitute.
  pose proof (substitute_fuel_post (length d) d (Nat.le_refl _)) as H.
  by destruct (substitute_fuel (length d) d).
Qed.

(** ** What a successful run establishes *)

Lemma substitute_Returned_inv d d' :
  substitute d = Returned d' ->
  exists st,
    inv d st /\ entries st = d' /\ forall k, k ∈ dict_keys d -> k ∈ resolved st.
Proof.
  intros (st & Hrun & <-)%substitute_Returned.
  pose proof (substitute_fuel_post (length d) d (Nat.le_refl _)) as H.
  rewrite Hrun in H. simpl in H. destruct H as (Hinv & _ & Hall).
  by exists st.
Qed.

(** After a successful run every entry has a fully substituted form: all
    placeholders are defined and there is no reference cycle. *)
Lemma substitute_fully_substituted d d' k :
  substitute d = Returned d' -> k ∈ dict_keys d ->
  exists v, fully_substituted d k v.
Proof.
  intros (st & Hinv & _ & Hall)%substitute_Returned_inv Hk.
  by apply (inv_wf _ _ Hinv), Hall.
Qed.

(** Where no entry's fully substituted form is its own key, the returned
    dictionary stores the fully substituted form of every entry. *)
Lemma substitute_stores_fully_substituted d d' k :
  no_value_is_its_key d -> substitute d = Returned d' -> k ∈ dict_keys d ->
  exists v, fully_substituted d k v /\ dict_get k d' = Some v.
Proof.
  intros Hclean (st & Hinv & <- & Hall)%substitute_Returned_inv Hk.
  by apply (inv_sem _ _ Hinv Hclean), Hall.
Qed.

(** Conversely a dictionary in which every entry has a fully substituted
    form is resolved successfully. *)
Lemma substitute_complete d :
  (forall k, k ∈ dict_keys d -> exists v, fully_substituted d k v) ->
  exists d', substitute d = Returned d'.
Proof.
  intros Hall. unfold substitute.
  pose proof (substitute_fuel_post (length d) d (Nat.le_refl _)) as H.
  destruct (substitute_fuel (length d) d) as [[] st|[chain|name|key] st|];
    simpl in *.
  - by eexists.
  - exfalso. destruct H as [[_ (s & c & Hs & _ & Hc & _ & Hcyc) S _] _].
    destruct (Hall c) as [v Hv].
    { apply S. rewrite Hs. apply elem_of_app. by left. }
    by apply (fully_substituted_no_cycle d c v).
  - exfalso. destruct H as [(_ & Hundef & k & Hk) _]. apply Hundef.
    destruct (Hall k) as [v Hv].
    { apply dict_get_keys. destruct Hk as (raw & -> & _). eauto. }
    destruct (fully_substituted_references d k v name Hv Hk) as [v1 Hv1].
    by eapply fully_substituted_key.
  - by destruct H.
  - done.
Qed.

(** *** Iteration order, where no value is its own key *)

Lemma dict_get_elem_iff d k v :
  NoDup (dict_keys d) -> dict_get k d = Some v <-> (k, v) ∈ d.
Proof.
  intros Hnd. split; [apply dict_get_elem|].
  induction d as [|[k' v'] d IH]; simpl in *.
  { intros H. by apply elem_of_nil in H. }
  apply NoDup_cons in Hnd as [Hk' Hnd].
  intros [[= -> ->]|Hin]%elem_of_cons.
  - by rewrite decide_True.
  - rewrite decide_False; [by apply IH|].
    intros ->. apply Hk'. unfold dict_keys. apply list_elem_of_fmap.
    by exists (k, v).
Qed.

Lemma dict_get_perm d1 d2 k :
  NoDup (dict_keys d1) -> d1 ≡ₚ d2 -> dict_get k d1 = dict_get k d2.
Proof.
  intros Hnd Hperm.
  assert (NoDup (dict_keys d2)) as Hnd2.
  { unfold dict_keys in *. by rewrite <- Hperm. }
  apply option_eq. intros v.
  rewrite !dict_get_elem_iff by done. by rewrite Hperm.
Qed.

Lemma fully_substituted_ext d1 d2 :
  (forall k, dict_get k d1 = dict_get k d2) ->
  forall k v, fully_substituted d1 k v -> fully_substituted d2 k v.
Proof.
  intros Hget.
  apply (fully_substituted_mut d1
    (fun k v => fully_substituted d2 k v)
    (fun ts v => substituted_text d2 ts v)).
  - intros k raw v Hraw _ IH. econstructor; [|done]. by rewrite <- Hget.
  - constructor.
  - intros c ts v _ IH. by constructor.
  - intros name ts v1 v _ IH1 _ IH. by constructor.
Qed.

(** Where no entry's fully substituted form is its own key, the result does
    not depend on the order in which the dictionary yields its keys. *)
Lemma substitute_order_independent d1 d2 r1 r2 k :
  NoDup (dict_keys d1) -> no_value_is_its_key d1 -> d1 ≡ₚ d2 ->
  substitute d1 = Returned r1 -> substitute d2 = Returned r2 ->
  dict_get k r1 = dict_get k r2.
Proof.
  intros Hnd Hclean Hperm
    (st1 & Hinv1 & <- & Hall1)%substitute_Returned_inv
    (st2 & Hinv2 & <- & Hall2)%substitute_Returned_inv.
  assert (forall k, dict_get k d1 = dict_get k d2) as Hget.
  { intros k'. by apply dict_get_perm. }
  assert (no_value_is_its_key d2) as Hclean2.
  { intros k' v Hv. apply Hclean. by apply (fully_substituted_ext d2 d1). }
  assert (dict_keys d1 ≡ₚ dict_keys d2) as Hkeys.
  { unfold dict_keys. by rewrite Hperm. }
  destruct (decide (k ∈ dict_keys d1)) as [Hk|Hk].
  - destruct (inv_sem _ _ Hinv1 Hclean k (Hall1 k Hk)) as (v1 & Hv1 & ->).
    assert (k ∈ dict_keys d2) as Hk2 by by rewrite <- Hkeys.
    destruct (inv_sem _ _ Hinv2 Hclean2 k (Hall2 k Hk2)) as (v2 & Hv2 & ->).
    f_equal. apply (fully_substituted_det d1 k v1 Hv1).
    by apply (fully_substituted_ext d2 d1).
  - assert (dict_get k (entries st1) = None) as ->.
    { apply dict_get_None. by rewrite (inv_keys _ _ Hinv1). }
    symmetry. apply dict_get_None. rewrite (inv_keys _ _ Hinv2).
    by rewrite <- Hkeys.
Qed.

(** ** The cyclic-reference error *)

(** The payload as the specification describes it: the chain starts at the
    name that is repeated at its end. *)

(** C4, as stated, fails: the payload starts at the top-level entry, not at
    the first repetition point.  For [{A: "${B}", B: "${B}"}] the chain is
    [A, B, B]. *)
Lemma cyclic_payload_not_from_repetition :
  ~ (forall chain d',
       substitute [("A", "${B}"); ("B", "${B}")]
       = Raised (CyclicSubstitutionError chain) d' ->
       starts_at_repetition chain).
Proof.
  intros H.
  destruct (H ["A"; "B"; "B"] [("A", "${B}"); ("B", "${B}")])
    as (c & mid & Heq); [by vm_compute|].
  injection Heq as <- Hmid.
  destruct mid as [|x [|y [|z mid]]]; simplify_eq.
Qed.

Lemma capture_substituter_cyclic resolve capture st :
  capture ∈ dict_keys (entries st) -> capture ∉ resolved st ->
  capture ∈ seen st ->
  capture_substituter resolve capture st
  = Raise (CyclicSubstitutionError (seen st ++ [capture]))
          (seen_append capture st).
Proof.
  intros Hk Hres Hseen. unfold capture_substituter.
  apply dict_mem_keys in Hk. rewrite Hk. simpl.
  by rewrite decide_False, decide_True.
Qed.

(** ** The undefined-reference error *)

Lemma capture_substituter_undefined resolve capture st :
  capture ∉ dict_keys (entries st) ->
  capture_substituter resolve capture st
  = Raise (UndefinedSubstitutionError capture) st.
Proof.
  intros Hk. unfold capture_substituter.
  destruct (dict_mem capture (entries st)) eqn:Hmem; [|done].
  by apply dict_mem_keys in Hmem.
Qed.

(** ** Resolving twice *)

Lemma value_placeholder_free_sub repl v st :
  value_placeholder_free v = true ->
  re_sub repl (placeholder_scan v) st = Return v st.
Proof.
  intros H. rewrite re_sub_no_ref; [by rewrite placeholder_scan_text|].
  apply Forall_forall. intros t Ht%list_elem_of_In.
  unfold value_placeholder_free in H. rewrite forallb_forall in H.
  apply negb_true_iff. by apply H.
Qed.

Lemma placeholder_free_get d k v :
  placeholder_free d = true -> dict_get k d = Some v ->
  value_placeholder_free v = true.
Proof.
  intros H Hv%dict_get_elem%list_elem_of_In.
  unfold placeholder_free in H. rewrite forallb_forall in H.
  by apply (H (k, v)).
Qed.

Lemma resolve_placeholder_free fuel entry st :
  placeholder_free (entries st) = true ->
  entry ∈ dict_keys (entries st) ->
  exists v st',
    resolve_substitution (S fuel) entry st = Return v st'
    /\ entries st' = entries st.
Proof.
  intros Hfree [raw Hraw]%dict_get_keys.
  cbn [resolve_substitution]. cbv zeta. simpl entries at 1. rewrite Hraw.
  rewrite value_placeholder_free_sub by by eapply placeholder_free_get.
  eexists _, _. split; [done|]. simpl.
  destruct (decide (entry = raw)); simpl; [done|]. by apply dict_set_id.
Qed.

Lemma substitute_loop_placeholder_free fuel keys st :
  placeholder_free (entries st) = true ->
  (forall k, k ∈ keys -> k ∈ dict_keys (entries st)) ->
  exists st',
    substitute_loop (S fuel) keys st = Return tt st'
    /\ entries st' = entries st.
Proof.
  revert st. induction keys as [|entry keys IH]; intros st Hfree Hkeys.
  { by exists st. }
  cbn [substitute_loop].
  assert (forall k, k ∈ keys -> k ∈ dict_keys (entries st)) as Hkeys'.
  { intros k Hk. apply Hkeys. by right. }
  destruct (decide (entry ∈ resolved st)); [by apply IH|].
  unfold resolve_toplevel.
  destruct (resolve_placeholder_free fuel entry (seen_fresh st))
    as (v & st1 & -> & E1); [done | apply Hkeys; by left |].
  simpl in E1.
  destruct (IH st1) as (st2 & -> & E2); [by rewrite E1..|].
  exists st2. split; [done | congruence].
Qed.

(** C7, as stated, fails: substituted text can form a new placeholder.  In
    [{A: "${B}{B}", B: "$"}] the first call stores ["${B}"] for [A], and a
    second call turns it into ["$"]. *)
Lemma resolve_twice_differs :
  ~ (forall d',
       substitute [("A", "${B}{B}"); ("B", "$")] = Returned d' ->
       substitute d' = Returned d').
Proof.
  intros H. specialize (H [("A", "${B}"); ("B", "$")]).
  vm_compute in H. by specialize (H eq_refl).
Qed.

(** C7, amended. When the dictionary returned by [substitute] contains no
    placeholder any more, resolving it again returns it unchanged. *)
Theorem resolve_twice (d d' : dict) :
  substitute d = Returned d' ->
  placeholder_free d' = true ->
  substitute d' = Returned d'.
Proof.
  intros _ Hfree. unfold substitute, substitute_fuel.
  destruct d' as [|kv d']; [done|]. cbn [length].
  destruct (substitute_loop_placeholder_free (length d')
              (dict_keys (kv :: d')) (initial_state (kv :: d')))
    as (st' & -> & E); [done..|].
  simpl. by rewrite E.
Qed.

Lemma resolve_twice_witness :
  substitute [("A", "x"); ("B", "x")] = Returned [("A", "x"); ("B", "x")].
Proof.
  apply (resolve_twice [("A", "${B}"); ("B", "x")]); vm_compute; reflexivity.
Defined.

(** ** The comparison [entry != subst] at work *)

(** C1 fails on [{A: "${B}", B: "A"}]: the fully substituted form of [A] is
    the string ["A"], equal to the key, so the store is skipped; [A] is marked
    resolved and the returned dictionary still holds the raw ["${B}"]. *)
Theorem stored_value_not_substituted :
  substitute [("A", "${B}"); ("B", "A")]
  = Returned [("A", "${B}"); ("B", "A")]
  /\ fully_substituted [("A", "${B}"); ("B", "A")] "A" "A"
  /\ (exists st',
        resolve_toplevel 2 "A" (initial_state [("A", "${B}"); ("B", "A")])
        = Return "A" st'
        /\ "A" ∈ resolved st'
        /\ dict_get "A" (entries st') = Some "${B}").
Proof.
  split; [by vm_compute|]. split.
  - apply (fully_substituted_entry _ "A" "${B}" "A"); [reflexivity|].
    change (placeholder_scan "${B}") with [Ref "B"].
    apply (substituted_ref _ "B" [] "A" ""); [|constructor].
    apply (fully_substituted_entry _ "B" "A" "A"); [reflexivity|].
    change (placeholder_scan "A") with [Lit "A"%char].
    apply (substituted_lit _ "A"%char [] ""). constructor.
  - eexists. split; [by vm_compute|]. split; by vm_compute.
Qed.

(** C2 fails on [{A: "${B}", B: "A", C: "${A}"}]: with [A] first, [C] reads
    the stored raw value of the resolved [A]; with [C] first, [C] gets the
    value the recursive call returns. *)
Theorem iteration_order_matters :
  [("A", "${B}"); ("B", "A"); ("C", "${A}")]
  ≡ₚ [("C", "${A}"); ("A", "${B}"); ("B", "A")]
  /\ substitute [("A", "${B}"); ("B", "A"); ("C", "${A}")]
     = Returned [("A", "${B}"); ("B", "A"); ("C", "${B}")]
  /\ substitute [("C", "${A}"); ("A", "${B}"); ("B", "A")]
     = Returned [("C", "A"); ("A", "${B}"); ("B", "A")]
  /\ dict_get "C" [("A", "${B}"); ("B", "A"); ("C", "${B}")]
     <> dict_get "C" [("C", "A"); ("A", "${B}"); ("B", "A")].
Proof.
  split_and!; [|by vm_compute..].
  apply (Permutation_app_comm [("A", "${B}"); ("B", "A")] [("C", "${A}")]).
Qed.

(** C3 fails on [{C: "${A}", A: "${B}", B: "A", D: "${A}"}]: [C] and [D]
    both reference [A], which is resolved once, but [C] receives ["A"] from
    the recursive call while [D] receives the stored ["${B}"]. *)
Theorem fan_out_values_differ :
  substitute [("C", "${A}"); ("A", "${B}"); ("B", "A"); ("D", "${A}")]
  = Returned [("C", "A"); ("A", "${B}"); ("B", "A"); ("D", "${B}")].
Proof. by vm_compute. Qed.


(** * Further properties of the code *)

(** ** The pattern *)

Lemma match_placeholder_inv s name :
  match_placeholder s = Some name ->
  exists s' r,
    s = String "$" (String "{" s')
    /\ take_ident s' = (name, String "}" r) /\ name <> "".
Proof.
  unfold match_placeholder.
  destruct s as [|a s]; [done|].
  destruct (decide (a = "$"%char)) as [->|Ha].
  2:{ destruct a as [[] [] [] [] [] [] [] []]; try done; by destruct s. }
  destruct s as [|b s]; [done|].
  destruct (decide (b = "{"%char)) as [->|Hb].
  2:{ destruct b as [[] [] [] [] [] [] [] []]; done. }
  destruct (take_ident s) as [i r] eqn:E.
  destruct i as [|c i]; [done|].
  destruct r as [|e r]; [done|].
  destruct (decide (e = "}"%char)) as [->|He].
  2:{ destruct e as [[] [] [] [] [] [] [] []]; done. }
  intros [= <-]. by exists s, r.
Qed.

Lemma take_ident_all s i r : take_ident s = (i, r) -> all_ident i = true.
Proof.
  revert i r. induction s as [|c s IH]; simpl; intros i r.
  - by intros [= <- <-].
  - destruct (is_ident_char c) eqn:Hc.
    + destruct (take_ident s) as [i' r'] eqn:E. intros [= <- <-].
      simpl. rewrite Hc. by eapply IH.
    + by intros [= <- <-].
Qed.

Lemma take_ident_stop name c rest :
  all_ident name = true -> is_ident_char c = false ->
  take_ident (name +:+ String c rest) = (name, String c rest).
Proof.
  intros Hname Hc. induction name as [|x name IH].
  - rewrite string_app_nil. simpl. by rewrite Hc.
  - simpl in Hname. apply andb_true_iff in Hname as [Hx Hname].
    rewrite string_app_cons. simpl. rewrite Hx. by rewrite IH.
Qed.

(** X1. The scanner loses and invents nothing: written back as text, the
    literal characters and the matches it finds in a subject string spell
    that string. *)
Theorem placeholder_scan_round_trip (s : string) :
  tokens_text (placeholder_scan s) = s.
Proof.
  unfold placeholder_scan.
  assert (forall n s, String.length s < n -> tokens_text (scan_from 0 s) = s)
    as Hn; [|apply (Hn (S (String.length s))); lia].
  clear s. induction n as [|n IH]; intros s Hlen; [lia|].
  destruct s as [|c s]; [done|].
  cbn [scan_from].
  destruct (match_placeholder (String c s)) as [name|] eqn:E.
  - apply match_placeholder_inv in E as (s' & r & Hs & Htake & _).
    apply take_ident_app in Htake. injection Hs as -> ->. subst s'.
    replace (String "{" (name +:+ String "}" r))
      with (String "{" (name +:+ "}") +:+ r).
    2:{ rewrite string_app_cons, string_app_assoc. done. }
    replace (String.length name + 2) with
      (String.length (String "{" (name +:+ "}"))).
    2:{ simpl. rewrite string_app_length. simpl. lia. }
    rewrite scan_from_skip. cbn [tokens_text token_text].
    rewrite IH.
    + rewrite !string_app_cons, string_app_nil, !string_app_assoc. done.
    + simpl in Hlen. rewrite !string_app_length in Hlen. simpl in Hlen. lia.
  - cbn [tokens_text token_text]. rewrite IH; [done | simpl in Hlen; lia].
Qed.

(** X2. Whatever the pattern captures is a non-empty string over
    [[a-zA-Z0-9_]]: [${}] and names with other characters never reach
    [capture_substituter]. *)
Theorem captured_names_are_identifiers (s name : string) :
  Ref name ∈ placeholder_scan s -> is_identifier name = true.
Proof.
  unfold placeholder_scan. generalize 0.
  induction s as [|c s IH]; intros skip; cbn [scan_from].
  { intros H. by apply elem_of_nil in H. }
  destruct skip as [|skip]; [|by apply IH].
  destruct (match_placeholder (String c s)) as [name'|] eqn:E.
  - intros [[= ->]|Hn]%elem_of_cons; [|by eapply IH].
    apply match_placeholder_inv in E as (s' & r & _ & Htake & Hne).
    apply take_ident_all in Htake. by destruct name'.
  - intros [[=]|Hn]%elem_of_cons. by eapply IH.
Qed.

Lemma captured_names_are_identifiers_witness :
  is_identifier "b_1" = true.
Proof.
  apply (captured_names_are_identifiers "a${b_1}c" "b_1").
  vm_compute. apply list_elem_of_further, list_elem_of_here.
Defined.

Lemma match_placeholder_identifier name rest :
  is_identifier name = true ->
  match_placeholder (String "$" (String "{" (name +:+ String "}" rest)))
  = Some name.
Proof.
  intros Hname. unfold match_placeholder.
  rewrite take_ident_stop; [|by destruct name|done].
  by destruct name.
Qed.

Lemma scan_from_0 c s :
  scan_from 0 (String c s)
  = match match_placeholder (String c s) with
    | Some name => Ref name :: scan_from (String.length name + 2) s
    | None => Lit c :: scan_from 0 s
    end.
Proof. reflexivity. Qed.

(** X3. A well-formed placeholder is always found: where the subject starts
    with [${name}] for an identifier [name], the scan yields the match for
    [name] and goes on behind the closing brace. *)
Theorem placeholder_scan_placeholder (name rest : string) :
  is_identifier name = true ->
  placeholder_scan (token_text (Ref name) +:+ rest)
  = Ref name :: placeholder_scan rest.
Proof.
  intros Hname. unfold placeholder_scan.
  replace (token_text (Ref name) +:+ rest)
    with (String "$" (String "{" (name +:+ String "}" rest))).
  2:{ unfold token_text. by rewrite !string_app_assoc. }
  rewrite scan_from_0, match_placeholder_identifier by done.
  replace (String "{" (name +:+ String "}" rest))
    with (String "{" (name +:+ "}") +:+ rest).
  2:{ rewrite string_app_cons, string_app_assoc. done. }
  replace (String.length name + 2) with
    (String.length (String "{" (name +:+ "}"))).
  2:{ simpl. rewrite string_app_length. simpl. lia. }
  by rewrite scan_from_skip.
Qed.

Lemma placeholder_scan_placeholder_witness :
  placeholder_scan (token_text (Ref "foo") +:+ " bar")
  = Ref "foo" :: placeholder_scan " bar".
Proof. apply placeholder_scan_placeholder. reflexivity. Defined.

Lemma lacks_app c (a b : string) : lacks c (a +:+ b) = lacks c a && lacks c b.
Proof.
  induction a as [|x a IH]; [done|].
  rewrite string_app_cons. simpl. rewrite IH. by rewrite andb_assoc.
Qed.

Lemma tokens_text_app ts1 ts2 :
  tokens_text (ts1 ++ ts2) = tokens_text ts1 +:+ tokens_text ts2.
Proof.
  induction ts1 as [|t ts1 IH]; [done|].
  simpl. by rewrite IH, string_app_assoc.
Qed.

Lemma tokens_lit_or_ref ts :
  forallb (fun t => negb (is_ref t)) ts = true
  \/ exists pre name post, ts = pre ++ Ref name :: post.
Proof.
  induction ts as [|[c|name] ts IH].
  - by left.
  - destruct IH as [IH|(pre & name & post & ->)]; [by left|].
    right. by exists (Lit c :: pre), name, post.
  - right. by exists [], name, ts.
Qed.

(** X4. Malformed placeholder syntax is left alone: a value in which one of
    the characters [$], [{] and [}] does not occur at all contains no
    placeholder, the scan finds literal characters only. *)
Theorem incomplete_syntax_no_placeholder (c : ascii) (s : string) :
  c = "$"%char \/ c = "{"%char \/ c = "}"%char ->
  lacks c s = true -> value_placeholder_free s = true.
Proof.
  intros Hc Hlacks. unfold value_placeholder_free.
  destruct (tokens_lit_or_ref (placeholder_scan s))
    as [H|(pre & name & post & Hscan)]; [done|].
  exfalso. rewrite <- (placeholder_scan_text s), Hscan in Hlacks.
  rewrite tokens_text_app in Hlacks. cbn [tokens_text token_text] in Hlacks.
  rewrite !lacks_app in Hlacks.
  apply andb_true_iff in Hlacks as [_ Hlacks].
  apply andb_true_iff in Hlacks as [Hlacks _].
  apply andb_true_iff in Hlacks as [H1 Hlacks].
  apply andb_true_iff in Hlacks as [_ H2].
  destruct Hc as [->|[->| ->]]; discriminate.
Qed.

Lemma incomplete_syntax_no_placeholder_witness :
  value_placeholder_free "${a ${b ${" = true.
Proof.
  apply (incomplete_syntax_no_placeholder "}"); [by right; right|reflexivity].
Defined.

(** ** Entries without placeholders *)

Section literal_entry.
Variables k v : string.
Hypothesis v_free : value_placeholder_free v = true.

Lemma capture_substituter_keeps_literal resolve :
  (forall c st, dict_get k (entries st) = Some v ->
     after (fun st' => dict_get k (entries st') = Some v) (resolve c st)) ->
  forall c st, dict_get k (entries st) = Some v ->
    after (fun st' => dict_get k (entries st') = Some v)
      (capture_substituter resolve c st).
Proof.
  intros Hres c st Hk. unfold capture_substituter.
  destruct (negb (dict_mem c (entries st))); [done|].
  destruct (decide (c ∈ resolved st)).
  { by destruct (dict_get c (entries st)). }
  destruct (decide (c ∈ seen st)); [done|]. by apply Hres.
Qed.

Lemma re_sub_keeps_literal repl :
  (forall c st, dict_get k (entries st) = Some v ->
     after (fun st' => dict_get k (entries st') = Some v) (repl c st)) ->
  forall ts st, dict_get k (entries st) = Some v ->
    after (fun st' => dict_get k (entries st') = Some v) (re_sub repl ts st).
Proof.
  intros Hrepl ts. induction ts as [|[c|name] ts IH]; intros st Hk; simpl.
  - done.
  - specialize (IH st Hk). by destruct (re_sub repl ts st).
  - specialize (Hrepl name st Hk).
    destruct (repl name st) as [r st1|e st1|]; simpl in *; [|done..].
    specialize (IH st1 Hrepl). by destruct (re_sub repl ts st1).
Qed.

Lemma resolve_substitution_keeps_literal fuel entry st :
  dict_get k (entries st) = Some v ->
  after (fun st' => dict_get k (entries st') = Some v)
    (resolve_substitution fuel entry st).
Proof.
  revert entry st. induction fuel as [|fuel IH]; intros entry st Hk; [done|].
  cbn [resolve_substitution]. cbv zeta.
  set (st1 := seen_append entry st).
  assert (dict_get k (entries st1) = Some v) as Hk1 by done.
  destruct (dict_get entry (entries st1)) as [raw|] eqn:Hraw; [|done].
  destruct (decide (entry = k)) as [->|Hne].
  - rewrite Hk1 in Hraw. injection Hraw as <-.
    rewrite value_placeholder_free_sub by done. simpl.
    destruct (decide (k = v)); simpl; [done | apply dict_get_set_eq].
  - pose proof (re_sub_keeps_literal _
                  (capture_substituter_keeps_literal _ IH)
                  (placeholder_scan raw) st1 Hk1) as H.
    destruct (re_sub _ _ st1) as [subst st2|e st2|]; simpl in *; [|done..].
    destruct (decide (entry = subst)); simpl; [done|].
    by rewrite dict_get_set_ne.
Qed.

Lemma substitute_loop_keeps_literal fuel keys st :
  dict_get k (entries st) = Some v ->
  after (fun st' => dict_get k (entries st') = Some v)
    (substitute_loop fuel keys st).
Proof.
  revert st. induction keys as [|entry keys IH]; intros st Hk; simpl; [done|].
  destruct (decide (entry ∈ resolved st)); [by apply IH|].
  unfold resolve_toplevel.
  pose proof (resolve_substitution_keeps_literal fuel entry (seen_fresh st) Hk)
    as H.
  destruct (resolve_substitution fuel entry (seen_fresh st)); simpl in *;
    [by apply IH | done..].
Qed.
End literal_entry.

(** X5. An entry whose value contains no placeholder keeps that value:
    whether [substitute] returns or raises, the dictionary it leaves behind
    stores for such an entry what the caller passed in. *)
Theorem literal_entry_unchanged (d : dict) (k v : string) :
  dict_get k d = Some v -> value_placeholder_free v = true ->
  match substitute d with
  | Returned d' | Raised _ d' => dict_get k d' = Some v
  | Diverged => False
  end.
Proof.
  intros Hk Hfree. pose proof (substitute_keys_or_diverged d) as Hterm.
  unfold substitute in *.
  pose proof (substitute_loop_keeps_literal k v Hfree (length d) (dict_keys d)
                (initial_state d) Hk) as H.
  fold (substitute_fuel (length d) d) in H.
  by destruct (substitute_fuel (length d) d).
Qed.

Lemma literal_entry_unchanged_witness :
  match substitute [("A", "${B}"); ("B", "x"); ("C", "${Z}")] with
  | Returned d' | Raised _ d' => dict_get "B" d' = Some "x"
  | Diverged => False
  end.
Proof. apply (literal_entry_unchanged _ "B" "x"); reflexivity. Defined.

(** ** Resolved entries *)

Section resolved_entry.
Variable k : string.

Lemma capture_substituter_keeps_resolved resolve :
  (forall c st, k ∈ resolved st -> c <> k ->
     after (fun st' => k ∈ resolved st'
              /\ dict_get k (entries st') = dict_get k (entries st))
       (resolve c st)) ->
  forall c st, k ∈ resolved st ->
    after (fun st' => k ∈ resolved st'
             /\ dict_get k (entries st') = dict_get k (entries st))
      (capture_substituter resolve c st).
Proof.
  intros Hres c st Hk. unfold capture_substituter.
  destruct (negb (dict_mem c (entries st))); [done|].
  destruct (decide (c ∈ resolved st)) as [|Hc].
  { by destruct (dict_get c (entries st)). }
  destruct (decide (c ∈ seen st)); [done|].
  apply Hres; [done|]. by intros ->.
Qed.

Lemma re_sub_keeps_resolved repl :
  (forall c st, k ∈ resolved st ->
     after (fun st' => k ∈ resolved st'
              /\ dict_get k (entries st') = dict_get k (entries st))
       (repl c st)) ->
  forall ts st, k ∈ resolved st ->
    after (fun st' => k ∈ resolved st'
             /\ dict_get k (entries st') = dict_get k (entries st))
      (re_sub repl ts st).
Proof.
  intros Hrepl ts. induction ts as [|[c|name] ts IH]; intros st Hk; simpl.
  - done.
  - specialize (IH st Hk). by destruct (re_sub repl ts st).
  - specialize (Hrepl name st Hk).
    destruct (repl name st) as [r st1|e st1|]; simpl in *; [|done..].
    destruct Hrepl as [Hk1 Hget1]. specialize (IH st1 Hk1).
    destruct (re_sub repl ts st1); simpl in *; [|by rewrite <- Hget1|done].
    by rewrite <- Hget1.
Qed.

Lemma resolve_substitution_keeps_resolved fuel entry st :
  k ∈ resolved st -> entry <> k ->
  after (fun st' => k ∈ resolved st'
           /\ dict_get k (entries st') = dict_get k (entries st))
    (resolve_substitution fuel entry st).
Proof.
  revert entry st. induction fuel as [|fuel IH]; intros entry st Hk Hne; [done|].
  cbn [resolve_substitution]. cbv zeta.
  set (st1 := seen_append entry st).
  destruct (dict_get entry (entries st1)) as [raw|] eqn:Hraw; [|done].
  pose proof (re_sub_keeps_resolved _
                (capture_substituter_keeps_resolved _ IH)
                (placeholder_scan raw) st1 Hk) as H.
  destruct (re_sub _ _ st1) as [subst st2|e st2|]; simpl in *; [|done..].
  destruct H as [Hk2 Hget]. split.
  - destruct (decide (entry = subst)); simpl; apply elem_of_union; by right.
  - destruct (decide (entry = subst)); simpl; [done|].
    by rewrite dict_get_set_ne.
Qed.
End resolved_entry.

(** X6. Once an entry is marked resolved it is final: no later call of
    [resolve_substitution] for another entry and no later round of the loop
    of [substitute] rewrites its value or unmarks it. *)
Theorem resolved_entry_is_final (k : string) :
  (forall fuel entry st,
     k ∈ resolved st -> entry <> k ->
     after (fun st' => k ∈ resolved st'
              /\ dict_get k (entries st') = dict_get k (entries st))
       (resolve_substitution fuel entry st))
  /\ (forall fuel keys st,
        k ∈ resolved st ->
        after (fun st' => k ∈ resolved st'
                 /\ dict_get k (entries st') = dict_get k (entries st))
          (substitute_loop fuel keys st)).
Proof.
  split; [apply resolve_substitution_keeps_resolved|].
  intros fuel keys. induction keys as [|entry keys IH]; intros st Hk; simpl.
  { done. }
  destruct (decide (entry ∈ resolved st)) as [|Hentry]; [by apply IH|].
  unfold resolve_toplevel.
  pose proof (resolve_substitution_keeps_resolved k fuel entry (seen_fresh st)
                Hk) as H.
  destruct (resolve_substitution fuel entry (seen_fresh st))
    as [r st1|e st1|]; simpl in *; [|by apply H; intros ->|done].
  destruct H as [Hk1 Hget1]; [by intros ->|].
  specialize (IH st1 Hk1).
  destruct (substitute_loop fuel keys st1); simpl in *; [| |done];
    by rewrite <- Hget1.
Qed.

Lemma resolved_entry_is_final_witness :
  after (fun st' =>
           "B" ∈ resolved st'
           /\ dict_get "B" (entries st')
              = dict_get "B"
                  (entries (mark_resolved "B"
                     (initial_state [("A", "${B}"); ("B", "${A}")]))))
    (substitute_loop 2 ["A"; "B"]
       (mark_resolved "B" (initial_state [("A", "${B}"); ("B", "${A}")]))).
Proof.
  apply (proj2 (resolved_entry_is_final "B")).
  simpl. apply elem_of_union. left. by apply elem_of_singleton.
Defined.

(** ** When [substitute] succeeds, and with what *)

Lemma references_key d k name : references d k name -> k ∈ dict_keys d.
Proof. intros (raw & Hraw & _). apply dict_get_keys. by rewrite Hraw. Qed.

Lemma fully_substituted_all_acyclic d :
  (forall k, k ∈ dict_keys d -> exists v, fully_substituted d k v) ->
  acyclic d /\ fully_defined d.
Proof.
  intros Hall. split.
  - intros k Hcycle.
    assert (k ∈ dict_keys d) as Hk.
    { inversion Hcycle; subst; by eapply references_key. }
    destruct (Hall k Hk) as [v Hv].
    by apply (fully_substituted_no_cycle d k v).
  - intros name [k Hname].
    destruct (Hall k (references_key _ _ _ Hname)) as [v Hv].
    destruct (fully_substituted_references d k v name Hv Hname) as [v1 Hv1].
    by eapply fully_substituted_key.
Qed.

(** X9. Where no entry's fully substituted form is the entry's own key, the
    dictionary [substitute] returns stores for every entry its fully
    substituted form: each placeholder replaced, recursively, by the fully
    substituted form of the entry it names. *)
Theorem substitute_returns_fully_substituted (d d' : dict) (k v : string) :
  no_value_is_its_key d -> substitute d = Returned d' ->
  fully_substituted d k v -> dict_get k d' = Some v.
Proof.
  intros Hclean (st & Hinv & <- & Hall)%substitute_Returned_inv Hv.
  destruct (inv_sem _ _ Hinv Hclean k) as (v' & Hv' & ->).
  { by eapply Hall, fully_substituted_key. }
  f_equal. by apply (fully_substituted_det d k v').
Qed.

Lemma fully_substituted_literal d k v :
  dict_get k d = Some v -> value_placeholder_free v = true ->
  fully_substituted d k v.
Proof.
  intros Hk Hfree. econstructor; [done|].
  rewrite <- (placeholder_scan_text v) at 2.
  unfold value_placeholder_free in Hfree.
  induction (placeholder_scan v) as [|[c|name] ts IH]; simpl in *.
  - constructor.
  - constructor. by apply IH.
  - done.
Qed.

Lemma string_app_nil_r (s : string) : s +:+ "" = s.
Proof.
  induction s as [|c s IH]; [done|]. rewrite string_app_cons. by f_equal.
Qed.

Lemma placeholder_scan_alias name :
  is_identifier name = true ->
  placeholder_scan (token_text (Ref name)) = [Ref name].
Proof.
  intros Hname. unfold placeholder_scan.
  change (token_text (Ref name))
    with (String "$" (String "{" (name +:+ String "}" ""))).
  rewrite scan_from_0, match_placeholder_identifier by done.
  replace (String.length name + 2) with
    (String.length (String "{" (name +:+ "}"))).
  2:{ simpl. rewrite string_app_length. simpl. lia. }
  rewrite <- (string_app_nil_r (String "{" (name +:+ "}"))) at 2.
  by rewrite scan_from_skip.
Qed.

Lemma fully_substituted_alias d k k' v :
  dict_get k d = Some (token_text (Ref k')) -> is_identifier k' = true ->
  fully_substituted d k' v -> fully_substituted d k v.
Proof.
  intros Hk Hid Hv. econstructor; [done|].
  rewrite placeholder_scan_alias by done.
  rewrite <- (string_app_nil_r v). by repeat constructor.
Qed.

Lemma substitute_returns_fully_substituted_witness :
  dict_get "A" [("A", "x"); ("B", "x")] = Some "x".
Proof.
  assert (fully_substituted [("A", "${B}"); ("B", "x")] "B" "x") as HB.
  { by apply fully_substituted_literal. }
  assert (fully_substituted [("A", "${B}"); ("B", "x")] "A" "x") as HA.
  { by apply (fully_substituted_alias _ "A" "B"). }
  apply (substitute_returns_fully_substituted
           [("A", "${B}"); ("B", "x")] [("A", "x"); ("B", "x")] "A" "x").
  - intros k v Hv.
    assert (k = "A" \/ k = "B") as [->| ->].
    { apply fully_substituted_key in Hv. simpl in Hv.
      apply elem_of_cons in Hv as [?|Hv]; [by left|].
      apply list_elem_of_singleton in Hv. by right. }
    + by rewrite (fully_substituted_det _ _ _ Hv _ HA).
    + by rewrite (fully_substituted_det _ _ _ Hv _ HB).
  - by vm_compute.
  - exact HA.
Defined.

(** ** Chains of references *)

Lemma chain_dict_keys keys leaf : dict_keys (chain_dict keys leaf) = keys.
Proof.
  induction keys as [|k keys IH]; [done|].
  destruct keys as [|k' keys]; [done|].
  cbn [chain_dict]. unfold dict_keys in *. rewrite fmap_cons. simpl.
  f_equal. exact IH.
Qed.

Lemma chain_dict_get pre k suf leaf :
  k ∉ pre ->
  dict_get k (chain_dict (pre ++ k :: suf) leaf)
  = Some match suf with
         | [] => leaf
         | k' :: _ => token_text (Ref k')
         end.
Proof.
  induction pre as [|p pre IH]; intros Hk.
  - destruct suf; simpl; by rewrite decide_True.
  - apply not_elem_of_cons in Hk as [Hne Hk].
    change ((p :: pre) ++ k :: suf) with (p :: (pre ++ k :: suf)).
    destruct (pre ++ k :: suf) as [|x l] eqn:E.
    { by destruct pre. }
    cbn [chain_dict dict_get]. rewrite decide_False by done. by apply IH.
Qed.

Lemma chain_dict_fully_substituted keys leaf :
  NoDup keys -> forallb is_identifier keys = true ->
  value_placeholder_free leaf = true ->
  forall suf pre k,
    keys = pre ++ suf -> k ∈ suf ->
    fully_substituted (chain_dict keys leaf) k leaf.
Proof.
  intros Hnd Hid Hleaf.
  induction suf as [|k0 suf IH]; intros pre k Hkeys Hk.
  { by apply elem_of_nil in Hk. }
  assert (forall k, k ∈ suf -> fully_substituted (chain_dict keys leaf) k leaf)
    as Hsuf.
  { intros k' Hk'. apply (IH (pre ++ [k0])); [|done].
    by rewrite <- app_assoc. }
  apply elem_of_cons in Hk as [->|Hk]; [|by apply Hsuf].
  assert (k0 ∉ pre) as Hpre.
  { subst keys. apply NoDup_app in Hnd as (_ & Hnd & _).
    intros Hin. apply (Hnd k0 Hin). left. }
  pose proof (chain_dict_get pre k0 suf leaf Hpre) as Hget.
  rewrite <- Hkeys in Hget. destruct suf as [|k1 suf].
  - by apply fully_substituted_literal.
  - apply (fully_substituted_alias _ k0 k1); [done| |apply Hsuf; left].
    rewrite forallb_forall in Hid. apply Hid, list_elem_of_In.
    subst keys. apply elem_of_app. right. right. left.
Qed.

Lemma dict_constant d v :
  NoDup (dict_keys d) ->
  (forall k, k ∈ dict_keys d -> dict_get k d = Some v) ->
  d = (fun k => (k, v)) <$> dict_keys d.
Proof.
  induction d as [|[k1 v1] d IH]; intros Hnd Hall; [done|].
  unfold dict_keys in *. rewrite fmap_cons in Hnd |- *. simpl in *.
  apply NoDup_cons in Hnd as [Hk1 Hnd].
  pose proof (Hall k1 (list_elem_of_here _ _)) as H1.
  rewrite decide_True in H1 by done. injection H1 as ->.
  f_equal. apply IH; [done|]. intros k Hk.
  specialize (Hall k (list_elem_of_further _ _ _ Hk)).
  rewrite decide_False in Hall; [done|]. by intros ->.
Qed.

(** With as many levels as there are entries, a chain of references
    resolves to its leaf. *)
Lemma substitute_enough_chain (keys : list string) (leaf : string) :
  NoDup keys -> forallb is_identifier keys = true ->
  value_placeholder_free leaf = true -> leaf ∉ keys ->
  substitute (chain_dict keys leaf) = Returned ((fun k => (k, leaf)) <$> keys).
Proof.
  intros Hnd Hid Hfree Hleaf.
  assert (forall k, k ∈ keys ->
            fully_substituted (chain_dict keys leaf) k leaf) as Hfs.
  { intros k Hk.
    by apply (chain_dict_fully_substituted keys leaf Hnd Hid Hfree keys []). }
  assert (no_value_is_its_key (chain_dict keys leaf)) as Hclean.
  { intros k v Hv.
    assert (k ∈ keys) as Hk.
    { rewrite <- (chain_dict_keys keys leaf). by eapply fully_substituted_key. }
    rewrite (fully_substituted_det _ _ _ Hv _ (Hfs k Hk)). by intros ->. }
  destruct (substitute_complete (chain_dict keys leaf)) as [d' Hrun].
  { intros k Hk. rewrite chain_dict_keys in Hk. exists leaf. by apply Hfs. }
  rewrite Hrun. f_equal.
  apply substitute_Returned_inv in Hrun as (st & Hinv & <- & Hall).
  pose proof (inv_keys _ _ Hinv) as Hkeys. rewrite chain_dict_keys in Hkeys.
  rewrite <- Hkeys. apply dict_constant; [by rewrite Hkeys|].
  intros k Hk. rewrite Hkeys in Hk.
  destruct (inv_sem _ _ Hinv Hclean k) as (v & Hv & ->).
  { apply Hall. by rewrite chain_dict_keys. }
  f_equal. by apply (fully_substituted_det _ _ _ Hv _ (Hfs k Hk)).
Qed.

(** * The run under a recursion limit *)

(** ** The invariant, whatever the limit *)

Lemma substitute_loop_app fuel pre rest st :
  substitute_loop fuel (pre ++ rest) st
  = match substitute_loop fuel pre st with
    | Return _ st' => substitute_loop fuel rest st'
    | Raise e st' => Raise e st'
    | OutOfFuel => OutOfFuel
    end.
Proof.
  revert st. induction pre as [|entry pre IH]; intros st; simpl; [done|].
  destruct (decide (entry ∈ resolved st)); [apply IH|].
  destruct (resolve_toplevel fuel entry st); [apply IH | done..].
Qed.

Lemma substitute_loop_post_limit d0 fuel keys st :
  inv d0 st -> (forall k, k ∈ keys -> k ∈ dict_keys d0) ->
  match substitute_loop fuel keys st with
  | OutOfFuel => True
  | o => post_loop d0 keys st o
  end.
Proof.
  revert st.
  induction keys as [|entry keys IH]; intros st Hinv Hkeys; simpl.
  { split_and!; [done..|]. intros k Hk. by apply elem_of_nil in Hk. }
  assert (forall k, k ∈ keys -> k ∈ dict_keys d0) as Hkeys'.
  { intros k Hk. apply Hkeys. by right. }
  destruct (decide (entry ∈ resolved st)) as [Hres|Hres].
  { specialize (IH st Hinv Hkeys').
    destruct (substitute_loop fuel keys st); simpl in *; [| |done].
    - destruct IH as (? & Hsub & IH). split_and!; [done..|].
      intros k [->|?]%elem_of_cons; [by apply Hsub | auto].
    - destruct IH as [? (top & ? & ?)]. split; [done|].
      exists top. split; [by right | done]. }
  unfold resolve_toplevel.
  pose proof (resolve_substitution_post d0 fuel entry (seen_fresh st)
                (inv_seen_fresh _ _ Hinv)) as H.
  pose proof (resolve_toplevel_ext fuel entry st) as E.
  unfold resolve_toplevel in E.
  destruct (resolve_substitution fuel entry (seen_fresh st))
    as [v st1|e st1|]; simpl in *; [| |done].
  - destruct H as (Hinv1 & Hr1 & _);
      [apply Hkeys; by left | done | apply not_elem_of_nil
      | by intros x Hx%elem_of_nil |].
    destruct E as (_ & Hsub & _).
    specialize (IH st1 Hinv1 Hkeys').
    destruct (substitute_loop fuel keys st1); simpl in *; [| |done].
    + destruct IH as (? & Hsub' & IH). split_and!; [done|by etrans|].
      intros k [->|?]%elem_of_cons; [by apply Hsub' | auto].
    + destruct IH as [? (top & ? & ?)]. split; [done|].
      exists top. split; [by right | done].
  - split.
    + apply H; [apply Hkeys; by left | done | apply not_elem_of_nil|].
      by intros x Hx%elem_of_nil.
    + exists entry. split; [by left | by destruct E as (_ & _ & ? & _)].
Qed.

Lemma substitute_fuel_post_limit limit d :
  match substitute_fuel limit d with
  | OutOfFuel => True
  | o => post_loop d (dict_keys d) (initial_state d) o
  end.
Proof. apply substitute_loop_post_limit; [apply inv_initial | done]. Qed.

Lemma substitute_within_Returns_inv limit d d' :
  substitute_within limit d = Returns d' ->
  exists st,
    inv d st /\ entries st = d' /\ forall k, k ∈ dict_keys d -> k ∈ resolved st.
Proof.
  unfold substitute_within.
  pose proof (substitute_fuel_post_limit limit d) as H.
  destruct (substitute_fuel limit d) as [[] st|e st|]; [|done..].
  intros [= <-]. simpl in H. destruct H as (Hinv & _ & Hall). by exists st.
Qed.

(** An interpreter that admits as many levels as there are entries behaves
    like [substitute]. *)
Lemma substitute_within_enough limit d :
  length d <= limit -> substitute_within limit d = observed_of (substitute d).
Proof.
  intros Hlimit. unfold substitute_within, substitute, substitute_fuel.
  replace limit with (length d + (limit - length d)) by lia.
  pose proof (substitute_fuel_post (length d) d (Nat.le_refl _)) as H.
  unfold substitute_fuel in H.
  rewrite substitute_loop_mono.
  - by destruct (substitute_loop (length d) (dict_keys d) (initial_state d)).
  - by destruct (substitute_loop (length d) (dict_keys d) (initial_state d)).
Qed.

(** ** Where an exception comes from *)

Lemma re_sub_raise_inv repl ts st e st2 :
  re_sub repl ts st = Raise e st2 ->
  exists ts1 name ts2 r st1,
    ts = ts1 ++ Ref name :: ts2
    /\ re_sub repl ts1 st = Return r st1
    /\ repl name st1 = Raise e st2.
Proof.
  revert st. induction ts as [|[c|name] ts IH]; intros st; simpl; [done|..].
  - destruct (re_sub repl ts st) as [r' st'|e' st'|] eqn:E; [done| |done].
    intros [= -> ->].
    destruct (IH st E) as (ts1 & name & ts2 & r & st1 & -> & Hpre & Hraise).
    exists (Lit c :: ts1), name, ts2, (String c r), st1.
    simpl. by rewrite Hpre.
  - destruct (repl name st) as [v st'|e' st'|] eqn:Hrepl; [| |done].
    + destruct (re_sub repl ts st') as [r' st''|e' st''|] eqn:E; [done| |done].
      intros [= -> ->].
      destruct (IH st' E) as (ts1 & name' & ts2 & r & st1 & -> & Hpre & Hraise).
      exists (Ref name :: ts1), name', ts2, (v +:+ r), st1.
      simpl. by rewrite Hrepl, Hpre.
    + intros [= -> ->]. by exists [], name, ts, "", st.
Qed.

Lemma capture_substituter_recurse resolve capture st :
  capture ∈ dict_keys (entries st) -> capture ∉ resolved st ->
  capture ∉ seen st ->
  capture_substituter resolve capture st = resolve capture st.
Proof.
  intros Hk Hres Hseen. unfold capture_substituter.
  apply dict_mem_keys in Hk. rewrite Hk. simpl.
  by rewrite !decide_False.
Qed.

(** An exception that [capture_substituter] raises by itself where a
    placeholder is encountered leaves the enclosing calls as it is. *)
Lemma captures_raise limit entry st name st1 e st2 :
  captures limit entry st name st1 ->
  (forall resolve, capture_substituter resolve name st1 = Raise e st2) ->
  resolve_substitution limit entry st = Raise e st2.
Proof.
  intros Hcap Hraise.
  induction Hcap
    as [limit entry st raw ts1 name ts2 r st1 Hraw Hscan Hpre
       |limit entry st raw ts1 inner ts2 r st1 name st2' Hraw Hscan Hpre
          Hk Hres Hseen Hcap IH].
  - by eapply resolve_substitution_raise.
  - eapply resolve_substitution_raise; [done..|].
    rewrite capture_substituter_recurse by done. by apply IH.
Qed.

Lemma raised_at_raise name st1 e st2 resolve :
  raised_at name st1 e st2 ->
  capture_substituter resolve name st1 = Raise e st2.
Proof.
  intros [(Hk & -> & ->)|(Hk & Hres & Hseen & -> & ->)].
  - by apply capture_substituter_undefined.
  - by apply capture_substituter_cyclic.
Qed.

(** Every exception of the module that leaves [resolve_substitution] was
    raised by [capture_substituter] where some placeholder was encountered. *)
Lemma resolve_substitution_raise_inv limit entry st e st2 :
  resolve_substitution limit entry st = Raise e st2 ->
  (exists name st1, captures limit entry st name st1 /\ raised_at name st1 e st2)
  \/ (exists k, e = KeyError k).
Proof.
  revert entry st. induction limit as [|limit IH]; intros entry st; [done|].
  cbn [resolve_substitution]. cbv zeta.
  destruct (dict_get entry (entries (seen_append entry st))) as [raw|] eqn:Hraw.
  2:{ intros [= <- _]. right. by eexists. }
  destruct (re_sub _ _ (seen_append entry st)) as [r st'|e' st'|] eqn:Hsub;
    [done| |done].
  intros [= -> ->].
  apply re_sub_raise_inv in Hsub
    as (ts1 & name & ts2 & r & st1 & Hscan & Hpre & Hcap).
  unfold capture_substituter in Hcap.
  destruct (dict_mem name (entries st1)) eqn:Hmem; simpl in Hcap.
  2:{ injection Hcap as <- <-. left. exists name, st1. split.
      - by eapply captures_here.
      - left. split_and!; [|done..].
        rewrite <- dict_mem_keys. by rewrite Hmem. }
  apply dict_mem_keys in Hmem.
  destruct (decide (name ∈ resolved st1)) as [Hres|Hres].
  { destruct (dict_get name (entries st1)); [done|].
    injection Hcap as <- _. right. by eexists. }
  destruct (decide (name ∈ seen st1)) as [Hseen|Hseen].
  { injection Hcap as <- <-. left. exists name, st1. split.
    - by eapply captures_here.
    - right. by split_and!. }
  destruct (IH name st1 Hcap) as [(name' & st1' & Hcap' & Hraised)|Hkey];
    [|by right].
  left. exists name', st1'. split; [|done].
  by eapply captures_nested.
Qed.

Lemma substitute_loop_raise_inv fuel keys st0 e st2 :
  substitute_loop fuel keys st0 = Raise e st2 ->
  exists pre top post st,
    keys = pre ++ top :: post
    /\ substitute_loop fuel pre st0 = Return tt st
    /\ (top ∉ resolved st)
    /\ resolve_toplevel fuel top st = Raise e st2.
Proof.
  revert st0. induction keys as [|entry keys IH]; intros st0; simpl; [done|].
  destruct (decide (entry ∈ resolved st0)) as [Hres|Hres].
  - intros (pre & top & post & st & -> & Hpre & Htop & Hraise)%IH.
    exists (entry :: pre), top, post, st. simpl.
    by rewrite decide_True.
  - destruct (resolve_toplevel fuel entry st0) as [v st'|e' st'|] eqn:Hcall;
      [| |done].
    + intros (pre & top & post & st & -> & Hpre & Htop & Hraise)%IH.
      exists (entry :: pre), top, post, st. simpl.
      by rewrite decide_False, Hcall.
    + intros [= -> ->]. by exists [], entry, keys, st0.
Qed.

(** What [capture_substituter] raises where a placeholder is encountered is
    what [substitute] raises. *)
Lemma encounters_raise limit d name st1 e st2 :
  encounters limit d name st1 -> raised_at name st1 e st2 ->
  substitute_within limit d = Raises e (entries st2).
Proof.
  intros (top & st & (pre & post & Hkeys & Hpre & Htop) & Hcap) Hraised.
  unfold substitute_within, substitute_fuel.
  rewrite Hkeys, substitute_loop_app, Hpre. simpl.
  rewrite decide_False by done. unfold resolve_toplevel.
  rewrite (captures_raise _ _ _ _ _ e st2 Hcap); [done|].
  intros resolve. by apply raised_at_raise.
Qed.

Lemma substitute_within_Raises_inv limit d e d' :
  substitute_within limit d = Raises e d' ->
  (exists name st1 st2,
     encounters limit d name st1 /\ raised_at name st1 e st2 /\ entries st2 = d')
  \/ (exists k, e = KeyError k).
Proof.
  unfold substitute_within, substitute_fuel.
  destruct (substitute_loop limit (dict_keys d) (initial_state d))
    as [[] st|e0 st2|] eqn:Hrun; [done| |done].
  intros [= -> <-].
  apply substitute_loop_raise_inv in Hrun
    as (pre & top & post & st & Hkeys & Hpre & Htop & Hraise).
  apply resolve_substitution_raise_inv in Hraise
    as [(name & st1 & Hcap & Hraised)|Hkey]; [|by right].
  left. exists name, st1, st2. split_and!; [|done..].
  exists top, st. split; [|done]. by exists pre, post.
Qed.

(** ** The state in which a placeholder is encountered *)

Lemma captures_inv d0 limit entry st name st1 :
  captures limit entry st name st1 ->
  inv d0 st -> entry ∈ dict_keys d0 -> entry ∉ resolved st ->
  entry ∉ seen st -> path_inv d0 entry st ->
  inv d0 st1
  /\ (seen st ++ [entry]) `prefix_of` seen st1
  /\ exists current, path_inv d0 current st1 /\ references d0 current name.
Proof.
  induction 1
    as [limit entry st raw ts1 name ts2 r st1 Hraw Hscan Hpre
       |limit entry st raw ts1 inner ts2 r st1 name st2 Hraw Hscan Hpre
          Hki Hri Hsi Hcap IH];
    intros Hinv Hk Hres Hseen Hpath.
  all: pose proof (inv_seen_append d0 entry st Hinv Hk Hseen) as Hinv0.
  all: assert (dict_get entry d0 = Some raw) as Hd0
         by (by rewrite <- (inv_raw _ _ Hinv entry Hres)).
  all: assert (path_inv d0 entry (seen_append entry st)) as Hpath0
         by (intros x [Hx| ->%list_elem_of_singleton]%elem_of_app Hr;
             [by apply Hpath | done]).
  all: pose proof (re_sub_post d0 limit _ (resolve_substitution_ext limit)
                     (resolve_substitution_post d0 limit) entry ts1
                     (seen_append entry st) Hinv0) as Hpost.
  all: pose proof (re_sub_ext _ (resolve_substitution_ext limit) ts1
                     (seen_append entry st)) as Hext.
  all: rewrite Hpre in Hpost, Hext; simpl in Hpost, Hext.
  all: destruct Hpost as (Hinv1 & _ & Hsettled & _);
         [intros n Hn; exists raw; split; [done|];
          rewrite Hscan; apply elem_of_app; by left
         | done |].
  all: pose proof (path_inv_settled d0 entry _ _ Hext Hsettled Hpath0)
         as Hpath1.
  - split_and!; [done | exact (ext_seen _ _ _ Hext) |].
    exists entry. split; [done|]. exists raw. split; [done|].
    rewrite Hscan. apply elem_of_app. right. left.
  - assert (references d0 entry inner) as Href.
    { exists raw. split; [done|].
      rewrite Hscan. apply elem_of_app. right. left. }
    destruct IH as (Hinv2 & Hprefix & Hcur); [done| |done|done| |].
    { by rewrite <- (inv_keys _ _ Hinv1). }
    { intros x Hx Hr. eapply rtc_r; [by apply Hpath1 | done]. }
    split_and!; [done| |done].
    etrans; [exact (ext_seen _ _ _ Hext)|].
    etrans; [|exact Hprefix]. by apply prefix_app_r.
Qed.

Lemma encounters_inv limit d name st1 :
  encounters limit d name st1 ->
  exists top st rest,
    top_level limit d top st
    /\ captures limit top (seen_fresh st) name st1
    /\ inv d st1 /\ seen st1 = top :: rest
    /\ forall x, x ∈ seen st1 -> x ∉ resolved st1 ->
         tc (references d) x name.
Proof.
  intros (top & st & Htop & Hcap). pose proof Htop as Htop'.
  destruct Htop' as (pre & post & Hkeys & Hpre & Hunres).
  pose proof (substitute_loop_post_limit d limit pre (initial_state d)
                (inv_initial d)) as Hloop.
  rewrite Hpre in Hloop. simpl in Hloop.
  destruct Hloop as (Hinv & _).
  { intros k Hk. rewrite Hkeys. apply elem_of_app. by left. }
  destruct (captures_inv d _ _ _ _ _ Hcap (inv_seen_fresh _ _ Hinv))
    as (Hinv1 & [rest Hprefix] & current & Hpath & Href).
  { rewrite Hkeys. apply elem_of_app. right. left. }
  { done. }
  { apply not_elem_of_nil. }
  { by intros x Hx%elem_of_nil. }
  exists top, st, rest. split_and!; [done..|].
  intros x Hx Hr. eapply tc_rtc_l; [by apply Hpath | by apply tc_once].
Qed.

(** ** The cyclic-reference error, where it is raised *)

(** C4, amended. When, during the run of [substitute], [capture_substituter]
    is called for a placeholder that names a key which is not resolved and is
    already on the seen chain (a self-reference included), [substitute]
    raises [CyclicSubstitutionError] at once; the payload is the seen chain
    at that moment with the name appended.  Conversely the payload of every
    such error raised by [substitute] is of that kind: it starts with the
    entry whose top-level resolution is under way (the first key that the
    preceding rounds of the loop left unresolved), goes on without
    repetition through the keys entered since, and ends with one more name
    that already occurs in it; every name of it that is not resolved yet
    leads to that last name through placeholders, so that the last name
    references itself.  A dictionary in which an entry references itself,
    directly or through other entries, is never resolved successfully. *)
Theorem cyclic_error_payload :
  (forall limit d name st1,
     encounters limit d name st1 ->
     name ∈ dict_keys d -> name ∉ resolved st1 -> name ∈ seen st1 ->
     substitute_within limit d
     = Raises (CyclicSubstitutionError (seen st1 ++ [name])) (entries st1))
  /\ (forall limit d chain d',
        substitute_within limit d = Raises (CyclicSubstitutionError chain) d' ->
        exists top st name st1 rest,
          top_level limit d top st
          /\ captures limit top (seen_fresh st) name st1
          /\ entries st1 = d'
          /\ chain = seen st1 ++ [name] /\ seen st1 = top :: rest
          /\ NoDup (top :: rest) /\ name ∈ top :: rest
          /\ (name ∉ resolved st1)
          /\ (forall x, x ∈ chain -> x ∈ dict_keys d)
          /\ (forall x, x ∈ top :: rest -> x ∉ resolved st1 ->
                tc (references d) x name))
  /\ (forall limit d k d',
        tc (references d) k k -> substitute_within limit d <> Returns d').
Proof.
  split; [|split].
  - intros limit d name st1 Henc Hk Hres Hseen.
    destruct (encounters_inv _ _ _ _ Henc)
      as (top & st & rest & _ & _ & Hinv1 & _ & _).
    apply (encounters_raise limit d name st1 _ (seen_append name st1) Henc).
    right. split_and!; [|done..]. by rewrite (inv_keys _ _ Hinv1).
  - intros limit d chain d' Hrun.
    apply substitute_within_Raises_inv in Hrun
      as [(name & st1 & st2 & Henc & Hraised & <-)|[k [=]]].
    destruct Hraised as [(_ & [=] & _)|(Hk & Hres & Hseen & [= ->] & ->)].
    destruct (encounters_inv _ _ _ _ Henc)
      as (top & st & rest & Htop & Hcap & Hinv1 & Hrest & Hpath).
    exists top, st, name, st1, rest.
    rewrite <- Hrest. split_and!; try done.
    + apply (inv_seen_nodup _ _ Hinv1).
    + intros x [Hx| ->%list_elem_of_singleton]%elem_of_app.
      * by apply (inv_seen_keys _ _ Hinv1).
      * by rewrite <- (inv_keys _ _ Hinv1).
  - intros limit d k d' Hcycle
      (st & Hinv & _ & Hall)%substitute_within_Returns_inv.
    destruct (inv_wf _ _ Hinv k) as [v Hv].
    { apply Hall. inversion Hcycle; subst; by eapply references_key. }
    by apply (fully_substituted_no_cycle d k v).
Qed.

Lemma cyclic_error_payload_witness :
  substitute_within 2 [("A", "${B}"); ("B", "${B}")]
  = Raises (CyclicSubstitutionError ["A"; "B"; "B"])
      [("A", "${B}"); ("B", "${B}")].
Proof.
  apply (proj1 cyclic_error_payload 2 [("A", "${B}"); ("B", "${B}")] "B"
           (seen_append "B" (seen_append "A"
              (seen_fresh (initial_state [("A", "${B}"); ("B", "${B}")]))))).
  - exists "A", (initial_state [("A", "${B}"); ("B", "${B}")]). split.
    + exists [], ["B"]. split_and!; [reflexivity..|].
      simpl. apply not_elem_of_empty.
    + apply (captures_nested 1 "A" _ "${B}" [] "B" [] ""
               (seen_append "A"
                  (seen_fresh (initial_state [("A", "${B}"); ("B", "${B}")]))));
        [reflexivity..| | | |].
      * simpl. compute_done.
      * simpl. apply not_elem_of_empty.
      * simpl. compute_done.
      * by apply (captures_here 0 "B" _ "${B}" [] "B" [] "").
  - simpl. compute_done.
  - simpl. apply not_elem_of_empty.
  - simpl. compute_done.
Defined.

(** ** The undefined-reference error, where it is raised *)

(** C5. When, during the run of [substitute], [capture_substituter] is
    called for a placeholder whose name is not a key, [substitute] raises
    [UndefinedSubstitutionError] with exactly that name at once: the
    dictionary is left as it was at that moment.  Conversely an
    [UndefinedSubstitutionError] raised by [substitute] carries the name of
    a placeholder that was encountered in this way and is not a key.  A
    dictionary with a placeholder that names no key is never resolved
    successfully. *)
Theorem undefined_error_iff_undefined_placeholder :
  (forall limit d name st1,
     encounters limit d name st1 -> name ∉ dict_keys d ->
     substitute_within limit d
     = Raises (UndefinedSubstitutionError name) (entries st1))
  /\ (forall limit d name d',
        substitute_within limit d
        = Raises (UndefinedSubstitutionError name) d' ->
        (name ∉ dict_keys d)
        /\ exists st1, encounters limit d name st1 /\ entries st1 = d')
  /\ (forall limit d name d',
        referenced d name -> name ∉ dict_keys d ->
        substitute_within limit d <> Returns d').
Proof.
  split; [|split].
  - intros limit d name st1 Henc Hk.
    destruct (encounters_inv _ _ _ _ Henc)
      as (top & st & rest & _ & _ & Hinv1 & _ & _).
    apply (encounters_raise limit d name st1 _ st1 Henc).
    left. split_and!; [|done..]. by rewrite (inv_keys _ _ Hinv1).
  - intros limit d name d' Hrun.
    apply substitute_within_Raises_inv in Hrun
      as [(name' & st1 & st2 & Henc & Hraised & <-)|[k [=]]].
    destruct Hraised as [(Hk & [= <-] & ->)|(_ & _ & _ & [=] & _)].
    destruct (encounters_inv _ _ _ _ Henc)
      as (top & st & rest & _ & _ & Hinv1 & _ & _).
    split; [by rewrite <- (inv_keys _ _ Hinv1) | by exists st1].
  - intros limit d name d' [k Hname] Hundef
      (st & Hinv & _ & Hall)%substitute_within_Returns_inv.
    apply Hundef.
    destruct (inv_wf _ _ Hinv k) as [v Hv].
    { by eapply Hall, references_key. }
    destruct (fully_substituted_references d k v name Hv Hname) as [v1 Hv1].
    by eapply fully_substituted_key.
Qed.

Lemma undefined_error_witness :
  substitute_within 2 [("A", "x${Y}"); ("B", "${Z}")]
  = Raises (UndefinedSubstitutionError "Y") [("A", "x${Y}"); ("B", "${Z}")].
Proof.
  apply (proj1 undefined_error_iff_undefined_placeholder 2
           [("A", "x${Y}"); ("B", "${Z}")] "Y"
           (seen_append "A"
              (seen_fresh (initial_state [("A", "x${Y}"); ("B", "${Z}")])))).
  - exists "A", (initial_state [("A", "x${Y}"); ("B", "${Z}")]). split.
    + exists [], ["B"]. split_and!; [reflexivity..|].
      simpl. apply not_elem_of_empty.
    + by apply (captures_here 1 "A" _ "x${Y}" [Lit "x"] "Y" [] "x").
  - simpl. compute_done.
Defined.

(** ** Termination and the recursion limit *)

(** What every run establishes about the dictionary it was given. *)
Lemma substitute_within_cases limit d :
  match substitute_within limit d with
  | Returns _ => acyclic d /\ fully_defined d
  | Raises (CyclicSubstitutionError _) _ => ~ acyclic d
  | Raises (UndefinedSubstitutionError _) _ => ~ fully_defined d
  | Raises (KeyError _) _ => False
  | RaisesRecursionError => limit < length d
  end.
Proof.
  pose proof (substitute_fuel_post_limit limit d) as H.
  pose proof (substitute_within_enough limit d) as He.
  pose proof (substitute_keys_or_diverged d) as Hd.
  unfold substitute_within in *.
  destruct (substitute_fuel limit d) as [[] st|[chain|name|key] st|];
    simpl in *.
  - destruct H as (Hinv & _ & Hall). apply fully_substituted_all_acyclic.
    intros k Hk. by apply (inv_wf _ _ Hinv), Hall.
  - intros Hacyclic.
    destruct H as [[_ (s & c & _ & _ & _ & _ & Hcyc) _ _] _].
    by apply (Hacyclic c).
  - intros Hdefined. destruct H as [(_ & Hundef & Href) _].
    by apply Hundef, Hdefined.
  - by destruct H.
  - destruct (decide (length d <= limit)) as [Hle|]; [|lia].
    specialize (He Hle). by destruct (substitute d).
Qed.

(** C6, as stated, fails: on the chain [k0 -> k1 -> ... -> k333 -> "x"] an
    interpreter that admits 333 nested calls of [resolve_substitution]
    neither returns nor raises one of the two errors of the module; it
    raises [RecursionError].  One more level and the call returns. *)
Lemma recursion_limit_exceeded :
  length (chain_dict (chain_keys 334) "x") = 334
  /\ substitute_within 333 (chain_dict (chain_keys 334) "x")
     = RaisesRecursionError
  /\ substitute_within 334 (chain_dict (chain_keys 334) "x")
     = Returns ((fun k => (k, "x")) <$> chain_keys 334).
Proof. split_and!; by vm_compute. Qed.

(** C6, amended. For every dictionary and every recursion limit
    [substitute] ends in one of four ways: it returns, it raises one of the
    two errors of the module, or it raises [RecursionError] - the latter
    only when the dictionary has more entries than the interpreter admits
    nesting levels.  It never raises [KeyError].  The measure is the seen
    chain: it is duplicate-free and drawn from the keys, hence never longer
    than the dictionary (one more when the cycle is reported).  An outcome
    other than [RecursionError] stays the same under every larger limit. *)
Theorem substitute_terminates (limit : nat) (d : dict) :
  match substitute_fuel limit d with
  | Return _ st => length (seen st) <= length d
  | Raise (CyclicSubstitutionError chain) st => length chain <= S (length d)
  | Raise (UndefinedSubstitutionError _) st => length (seen st) <= length d
  | Raise (KeyError _) _ => False
  | OutOfFuel => limit < length d
  end
  /\ (forall limit',
        limit <= limit' -> substitute_within limit d <> RaisesRecursionError ->
        substitute_within limit' d = substitute_within limit d).
Proof.
  split.
  - pose proof (substitute_fuel_post_limit limit d) as H.
    pose proof (substitute_within_cases limit d) as Hc.
    unfold substitute_within in Hc.
    destruct (substitute_fuel limit d) as [[] st|[chain|name|key] st|];
      simpl in H.
    + destruct H as [H _]. by eapply inv_seen_length.
    + destruct H as [H _]. by eapply cyc_inv_length.
    + destruct H as [[H _] _]. by eapply inv_seen_length.
    + by destruct H.
    + done.
  - intros limit' Hle Hrun. unfold substitute_within, substitute_fuel in *.
    replace limit' with (limit + (limit' - limit)) by lia.
    rewrite substitute_loop_mono; [done|].
    by destruct (substitute_loop limit (dict_keys d) (initial_state d)).
Qed.

Lemma substitute_terminates_witness :
  substitute_within 5 [("A", "${B}"); ("B", "x")]
  = substitute_within 2 [("A", "${B}"); ("B", "x")].
Proof.
  apply (proj2 (substitute_terminates 2 [("A", "${B}"); ("B", "x")]) 5).
  - lia.
  - by vm_compute.
Defined.

(** ** The store of a resolved entry *)

(** C10, as stated, fails in its second half: in
    [{P1: "P", P: "${P1}", Px: "${P}x"}] the fully substituted value of
    [Px] is its own key ["Px"], yet the raw value ["${P}x"] does not remain:
    [P] was stored unsubstituted, so [re.sub] computes ["${P1}x"] for [Px],
    which differs from the key and is stored. *)
Lemma raw_value_overwritten :
  fully_substituted [("P1", "P"); ("P", "${P1}"); ("Px", "${P}x")] "Px" "Px"
  /\ dict_get "Px" [("P1", "P"); ("P", "${P1}"); ("Px", "${P}x")]
     = Some "${P}x"
  /\ substitute [("P1", "P"); ("P", "${P1}"); ("Px", "${P}x")]
     = Returned [("P1", "P"); ("P", "${P1}"); ("Px", "${P1}x")].
Proof.
  split_and!; [|by vm_compute..].
  apply (fully_substituted_entry _ "Px" "${P}x" "Px"); [reflexivity|].
  change (placeholder_scan "${P}x") with [Ref "P"; Lit "x"%char].
  apply (substituted_ref _ "P" [Lit "x"%char] "P" "x").
  2:{ apply (substituted_lit _ "x"%char [] ""). constructor. }
  apply (fully_substituted_entry _ "P" "${P1}" "P"); [reflexivity|].
  change (placeholder_scan "${P1}") with [Ref "P1"].
  apply (substituted_ref _ "P1" [] "P" ""); [|constructor].
  apply (fully_substituted_entry _ "P1" "P" "P"); [reflexivity|].
  change (placeholder_scan "P") with [Lit "P"%char].
  apply (substituted_lit _ "P"%char [] ""). constructor.
Qed.

(** C10, amended. A call of [resolve_substitution] for [entry] that returns
    [subst] has computed [subst] by [re.sub] over the value [raw] stored for
    [entry] when the call began, the replacement function being
    [capture_substituter] (which hands back the stored value of a resolved
    entry as it is); that value is still stored when [re.sub] is done.
    Then [subst] is compared with the key: the dictionary is written, at
    [entry] only, exactly when [subst] differs from [entry], and [entry] is
    added to the resolved set either way.  So the value stored for [entry]
    afterwards is [subst] if [subst] differs from the key and [raw]
    otherwise. *)
Theorem store_compares_with_key (fuel : nat) (entry : string) (st : state)
    (subst : string) (st' : state) :
  resolve_substitution fuel entry st = Return subst st' ->
  exists fuel' raw st2,
    fuel = S fuel'
    /\ dict_get entry (entries st) = Some raw
    /\ re_sub (capture_substituter (resolve_substitution fuel'))
         (placeholder_scan raw) (seen_append entry st) = Return subst st2
    /\ dict_get entry (entries st2) = Some raw
    /\ entries st'
       = (if decide (entry = subst) then entries st2
          else dict_set entry subst (entries st2))
    /\ resolved st' = {[entry]} ∪ resolved st2
    /\ dict_get entry (entries st')
       = Some (if decide (entry = subst) then raw else subst).
Proof.
  destruct fuel as [|fuel]; [done|].
  cbn [resolve_substitution]. cbv zeta.
  set (st1 := seen_append entry st).
  change (entries st1) with (entries st).
  destruct (dict_get entry (entries st)) as [raw|] eqn:Hraw; [|done].
  pose proof (re_sub_ext _ (resolve_substitution_ext fuel)
                (placeholder_scan raw) st1) as E.
  destruct (re_sub _ _ st1) as [subst' st2|e st2|] eqn:Hsub; [|done..].
  intros [= -> <-]. simpl in E.
  assert (dict_get entry (entries st2) = Some raw) as Hkept.
  { rewrite <- Hraw. apply (ext_frame _ _ _ E). simpl.
    apply elem_of_app. right. apply list_elem_of_here. }
  exists fuel, raw, st2. split_and!; try done.
  - by destruct (decide (entry = subst)).
  - by destruct (decide (entry = subst)).
  - destruct (decide (entry = subst)); simpl; [done|].
    apply dict_get_set_eq.
Qed.

Lemma store_compares_with_key_witness :
  exists fuel' raw st2,
    2 = S fuel'
    /\ dict_get "A"
         (entries (seen_fresh (initial_state [("A", "${B}"); ("B", "A")])))
       = Some raw
    /\ re_sub (capture_substituter (resolve_substitution fuel'))
         (placeholder_scan raw)
         (seen_append "A"
            (seen_fresh (initial_state [("A", "${B}"); ("B", "A")])))
       = Return "A" st2
    /\ dict_get "A" (entries st2) = Some raw
    /\ entries (mark_resolved "A" (mark_resolved "B"
          (set_entry "B" "A" (seen_append "B" (seen_append "A"
             (seen_fresh (initial_state [("A", "${B}"); ("B", "A")])))))))
       = (if decide ("A" = "A") then entries st2
          else dict_set "A" "A" (entries st2))
    /\ resolved (mark_resolved "A" (mark_resolved "B"
          (set_entry "B" "A" (seen_append "B" (seen_append "A"
             (seen_fresh (initial_state [("A", "${B}"); ("B", "A")])))))))
       = {[ "A" ]} ∪ resolved st2
    /\ dict_get "A" (entries (mark_resolved "A" (mark_resolved "B"
          (set_entry "B" "A" (seen_append "B" (seen_append "A"
             (seen_fresh (initial_state [("A", "${B}"); ("B", "A")]))))))))
       = Some (if decide ("A" = "A") then raw else "A").
Proof.
  apply (store_compares_with_key 2 "A"
           (seen_fresh (initial_state [("A", "${B}"); ("B", "A")])) "A").
  vm_compute. reflexivity.
Defined.

(** ** Which dictionaries resolve, under a recursion limit *)

(** X7. [substitute] returns only for the dictionaries in which no entry
    references itself, directly or through other entries, and every
    placeholder names a key.  For such a dictionary it returns whenever the
    interpreter admits as many nesting levels as the dictionary has entries;
    under a smaller limit it returns or raises [RecursionError], never one
    of the errors of the module. *)
Theorem substitute_returns_iff (limit : nat) (d : dict) :
  ((exists d', substitute_within limit d = Returns d') ->
   acyclic d /\ fully_defined d)
  /\ (acyclic d -> fully_defined d ->
      (length d <= limit -> exists d', substitute_within limit d = Returns d')
      /\ (substitute_within limit d = RaisesRecursionError
          \/ exists d', substitute_within limit d = Returns d')).
Proof.
  pose proof (substitute_within_cases limit d) as H.
  split.
  - intros [d' Hrun]. by rewrite Hrun in H.
  - intros Hacyclic Hdefined.
    destruct (substitute_within limit d) as [d'|[chain|name|key] d'|];
      try done.
    + split; [|right]; by eauto.
    + split; [lia | by left].
Qed.

Lemma substitute_returns_iff_witness :
  acyclic [("A", "${B}"); ("B", "x")]
  /\ fully_defined [("A", "${B}"); ("B", "x")].
Proof.
  apply (proj1 (substitute_returns_iff 2 [("A", "${B}"); ("B", "x")])).
  exists [("A", "x"); ("B", "x")]. by vm_compute.
Defined.

(** X8. Which exception is raised: [CyclicSubstitutionError] only for a
    dictionary with a reference cycle, [UndefinedSubstitutionError] only
    for one with a placeholder that names no key, and [KeyError] never.
    When the interpreter admits as many nesting levels as the dictionary
    has entries, a fully defined dictionary with a reference cycle makes
    [substitute] raise [CyclicSubstitutionError] and an acyclic dictionary
    with an undefined placeholder makes it raise
    [UndefinedSubstitutionError], whatever the order of the entries. *)
Theorem substitute_error_kind (limit : nat) (d : dict) :
  (forall e d',
     substitute_within limit d = Raises e d' ->
     match e with
     | CyclicSubstitutionError _ => ~ acyclic d
     | UndefinedSubstitutionError _ => ~ fully_defined d
     | KeyError _ => False
     end)
  /\ (length d <= limit ->
      (fully_defined d -> ~ acyclic d ->
       exists chain d',
         substitute_within limit d
         = Raises (CyclicSubstitutionError chain) d')
      /\ (acyclic d -> ~ fully_defined d ->
          exists name d',
            substitute_within limit d
            = Raises (UndefinedSubstitutionError name) d')).
Proof.
  pose proof (substitute_within_cases limit d) as H.
  split.
  - intros e d' Hrun. by rewrite Hrun in H.
  - intros Hlimit.
    destruct (substitute_within limit d) as [d'|[chain|name|key] d'|].
    + destruct H. split; intros; done.
    + split; [by eauto | done].
    + split; [done | by eauto].
    + done.
    + lia.
Qed.

Lemma substitute_error_kind_witness :
  exists chain d',
    substitute_within 2 [("B", "x"); ("A", "${A}")]
    = Raises (CyclicSubstitutionError chain) d'.
Proof.
  apply (proj2 (substitute_error_kind 2 [("B", "x"); ("A", "${A}")])).
  - simpl. lia.
  - intros name (k & raw & Hraw & Hname). simpl in Hraw.
    destruct (decide ("B" = k)) as [<-|_].
    { injection Hraw as <-. vm_compute in Hname.
      apply list_elem_of_singleton in Hname. discriminate Hname. }
    destruct (decide ("A" = k)) as [<-|_]; [|discriminate Hraw].
    injection Hraw as <-. vm_compute in Hname.
    apply list_elem_of_singleton in Hname. injection Hname as ->.
    compute_done.
  - intros Hacyclic. apply (Hacyclic "A"), tc_once.
    exists "${A}". split; [reflexivity|]. vm_compute. apply list_elem_of_here.
Defined.

(** ** Reordering the entries, under a recursion limit *)

Lemma substitute_within_order_independent limit d1 d2 r1 r2 k :
  NoDup (dict_keys d1) -> no_value_is_its_key d1 -> d1 ≡ₚ d2 ->
  substitute_within limit d1 = Returns r1 ->
  substitute_within limit d2 = Returns r2 ->
  dict_get k r1 = dict_get k r2.
Proof.
  intros Hnd Hclean Hperm
    (st1 & Hinv1 & <- & Hall1)%substitute_within_Returns_inv
    (st2 & Hinv2 & <- & Hall2)%substitute_within_Returns_inv.
  assert (forall k, dict_get k d1 = dict_get k d2) as Hget.
  { intros k'. by apply dict_get_perm. }
  assert (no_value_is_its_key d2) as Hclean2.
  { intros k' v Hv. apply Hclean. by apply (fully_substituted_ext d2 d1). }
  assert (dict_keys d1 ≡ₚ dict_keys d2) as Hkeys.
  { unfold dict_keys. by rewrite Hperm. }
  destruct (decide (k ∈ dict_keys d1)) as [Hk|Hk].
  - destruct (inv_sem _ _ Hinv1 Hclean k (Hall1 k Hk)) as (v1 & Hv1 & ->).
    assert (k ∈ dict_keys d2) as Hk2 by by rewrite <- Hkeys.
    destruct (inv_sem _ _ Hinv2 Hclean2 k (Hall2 k Hk2)) as (v2 & Hv2 & ->).
    f_equal. apply (fully_substituted_det d1 k v1 Hv1).
    by apply (fully_substituted_ext d2 d1).
  - assert (dict_get k (entries st1) = None) as ->.
    { apply dict_get_None. by rewrite (inv_keys _ _ Hinv1). }
    symmetry. apply dict_get_None. rewrite (inv_keys _ _ Hinv2).
    by rewrite <- Hkeys.
Qed.

(** X10. If [substitute] returns for a dictionary with distinct keys, then
    on every reordering of the entries it raises neither of the errors of
    the module: it returns whenever the interpreter admits as many nesting
    levels as the dictionary has entries (under a smaller limit the
    reordering may raise [RecursionError] where the original returned), and
    when it returns and no entry's fully substituted form is its own key,
    both results store the same value for every key. *)
Theorem substitute_reordered (limit : nat) (d1 d2 r1 : dict) :
  NoDup (dict_keys d1) -> d1 ≡ₚ d2 ->
  substitute_within limit d1 = Returns r1 ->
  (length d1 <= limit -> exists r2, substitute_within limit d2 = Returns r2)
  /\ (forall e d', substitute_within limit d2 <> Raises e d')
  /\ (no_value_is_its_key d1 -> forall r2 k,
        substitute_within limit d2 = Returns r2 ->
        dict_get k r1 = dict_get k r2).
Proof.
  intros Hnd Hperm Hrun1.
  assert (acyclic d2 /\ fully_defined d2) as [Hacyclic Hdefined].
  { apply fully_substituted_all_acyclic. intros k Hk.
    apply substitute_within_Returns_inv in Hrun1 as (st & Hinv & _ & Hall).
    assert (k ∈ dict_keys d1) as Hk1.
    { unfold dict_keys in *. by rewrite Hperm. }
    destruct (inv_wf _ _ Hinv k (Hall k Hk1)) as [v Hv].
    exists v. apply (fully_substituted_ext d1 d2); [|done].
    intros k'. by apply dict_get_perm. }
  pose proof (substitute_within_cases limit d2) as H.
  split_and!.
  - intros Hlimit. rewrite Hperm in Hlimit.
    destruct (substitute_within limit d2) as [r2|[chain|name|key] d'|];
      try done; [by eauto | lia].
  - intros e d' Hrun2. rewrite Hrun2 in H. by destruct e.
  - intros Hclean r2 k Hrun2.
    by apply (substitute_within_order_independent limit d1 d2).
Qed.

Lemma substitute_reordered_witness :
  exists r2, substitute_within 2 [("B", "x"); ("A", "${B}")] = Returns r2.
Proof.
  apply (proj1 (substitute_reordered 2 [("A", "${B}"); ("B", "x")]
                  [("B", "x"); ("A", "${B}")] [("A", "x"); ("B", "x")]
                  ltac:(compute_done) (perm_swap _ _ _) ltac:(by vm_compute))).
  simpl. lia.
Defined.

(** ** Chains of references, under a recursion limit *)

(** In a chain every key needs a nesting level of its own. *)
Lemma chain_too_deep keys leaf limit :
  NoDup keys -> forallb is_identifier keys = true ->
  forall pre k suf st,
    keys = pre ++ k :: suf -> limit <= length suf ->
    entries st = chain_dict keys leaf ->
    (forall x, x ∈ k :: suf -> (x ∉ resolved st) /\ (x ∉ seen st)) ->
    resolve_substitution limit k st = OutOfFuel.
Proof.
  intros Hnd Hid.
  induction limit as [|limit IH]; intros pre k suf st Hkeys Hlen Hd Hfresh;
    [done|].
  destruct suf as [|k' suf]; [simpl in Hlen; lia|].
  assert ((k ∉ pre) /\ (k' ∉ pre) /\ k' <> k
          /\ forall x, x ∈ suf -> x <> k /\ x <> k') as (Hk & Hk' & Hne & Hsuf).
  { rewrite Hkeys in Hnd. apply NoDup_app in Hnd as (_ & Hpre & Hrest).
    apply NoDup_cons in Hrest as [Hk1 Hrest].
    apply NoDup_cons in Hrest as [Hk2 _].
    split_and!.
    - intros Hin. apply (Hpre k Hin). by left.
    - intros Hin. apply (Hpre k' Hin). right. by left.
    - intros ->. apply Hk1. by left.
    - intros x Hx. split; intros ->; [apply Hk1; by right | done]. }
  assert (is_identifier k' = true) as Hidk'.
  { rewrite forallb_forall in Hid. apply Hid, list_elem_of_In.
    rewrite Hkeys. apply elem_of_app. right. right. by left. }
  cbn [resolve_substitution]. cbv zeta.
  set (st1 := seen_append k st).
  change (entries st1) with (entries st).
  rewrite Hd, Hkeys, (chain_dict_get pre k (k' :: suf) leaf Hk).
  rewrite placeholder_scan_alias by done.
  cbn [re_sub].
  rewrite capture_substituter_recurse.
  - rewrite (IH (pre ++ [k]) k' suf st1); [done| | | |].
    + by rewrite <- app_assoc.
    + simpl in Hlen. lia.
    + exact Hd.
    + intros x Hx.
      assert (x ∈ k :: k' :: suf) as Hx' by by right.
      destruct (Hfresh x Hx') as [Hres Hseen]. split; [done|].
      simpl. intros [?| ->%list_elem_of_singleton]%elem_of_app; [done|].
      apply elem_of_cons in Hx as [?|Hx]; [done|].
      by destruct (Hsuf k Hx).
  - change (entries st1) with (entries st).
    rewrite Hd, chain_dict_keys, Hkeys. apply elem_of_app. right. right.
    by left.
  - apply (Hfresh k'). right. by left.
  - simpl. intros [Hin| Heq%list_elem_of_singleton]%elem_of_app; [|done].
    revert Hin. apply (Hfresh k'). right. by left.
Qed.

Lemma chain_recursion_error keys leaf limit :
  NoDup keys -> forallb is_identifier keys = true -> limit < length keys ->
  substitute_within limit (chain_dict keys leaf) = RaisesRecursionError.
Proof.
  intros Hnd Hid Hlen.
  destruct keys as [|k suf]; [simpl in Hlen; lia|].
  unfold substitute_within, substitute_fuel.
  rewrite chain_dict_keys. cbn [substitute_loop].
  rewrite decide_False by apply not_elem_of_empty.
  unfold resolve_toplevel.
  rewrite (chain_too_deep (k :: suf) leaf limit Hnd Hid [] k suf); try done.
  - simpl in Hlen. lia.
  - intros x _. split; [apply not_elem_of_empty | apply not_elem_of_nil].
Qed.

(** X11. The long-chain test for arbitrary keys and any recursion limit: if
    each key holds just the placeholder of the next key and the last key
    holds a placeholder-free value [leaf], with the keys distinct
    identifiers and [leaf] not one of them, then [substitute] returns the
    dictionary in which every key holds [leaf] when the interpreter admits
    as many nesting levels as the chain has keys, and raises
    [RecursionError] otherwise. *)
Theorem substitute_chain (limit : nat) (keys : list string) (leaf : string) :
  NoDup keys -> forallb is_identifier keys = true ->
  value_placeholder_free leaf = true -> leaf ∉ keys ->
  substitute_within limit (chain_dict keys leaf)
  = if decide (length keys <= limit)
    then Returns ((fun k => (k, leaf)) <$> keys)
    else RaisesRecursionError.
Proof.
  intros Hnd Hid Hfree Hleaf.
  destruct (decide (length keys <= limit)) as [Hle|Hgt].
  - rewrite substitute_within_enough.
    + by rewrite substitute_enough_chain.
    + by rewrite <- dict_keys_length, chain_dict_keys.
  - apply chain_recursion_error; [done..|lia].
Qed.

Lemma substitute_chain_witness :
  substitute_within 2 [("A", "${B}"); ("B", "${C}"); ("C", "")]
  = RaisesRecursionError
  /\ substitute_within 3 [("A", "${B}"); ("B", "${C}"); ("C", "")]
     = Returns [("A", ""); ("B", ""); ("C", "")].
Proof.
  split.
  - apply (substitute_chain 2 ["A"; "B"; "C"] "").
    + compute_done.
    + reflexivity.
    + reflexivity.
    + compute_done.
  - apply (substitute_chain 3 ["A"; "B"; "C"] "").
    + compute_done.
    + reflexivity.
    + reflexivity.
    + compute_done.
Defined.
